(** * Lazy Laurent series: a shallow embedding of
      [sage/rings/lazy_laurent_series.py]

    The Python module builds a graph of auxiliary nodes
    ([LazyLaurentSeries_aux] and its subclasses); every node memoises the
    coefficients it has computed and carries a mutable approximate valuation.
    Nodes reference each other by identity, and [define] can close a cycle
    through a [LazyLaurentSeries_uninitialized] node.  The embedding keeps
    the nodes in a store addressed by index and threads that store through
    every operation; Python exceptions are an explicit outcome that keeps the
    store, since mutations made before a [raise] stay visible. *)

From Stdlib Require Import ZArith List Bool Lia Ring.
Import ListNotations.
Local Open Scope Z_scope.

Set Implicit Arguments.

(** ** The coefficient ring

    The base ring is supplied by the parent of the series.  [inv] is the
    ring's [~a]; [None] stands for the [ZeroDivisionError] it raises.
    [poly_quo] is the exact division of the Laurent polynomial ring used by
    the fast path of [_div_] ([None]: the quotient is not a Laurent
    polynomial). *)

Record CoeffRing : Type := {
  carrier :> Type;
  zero : carrier;
  one : carrier;
  add : carrier -> carrier -> carrier;
  mul : carrier -> carrier -> carrier;
  sub : carrier -> carrier -> carrier;
  opp : carrier -> carrier;
  eqb : carrier -> carrier -> bool;
  inv : carrier -> option carrier;
  poly_quo : Z * list carrier -> Z * list carrier -> option (Z * list carrier)
}.

(** Python's [range(lo, hi)]. *)
Definition range (lo hi : Z) : list Z :=
  map (fun i => lo + Z.of_nat i) (seq 0 (Z.to_nat (hi - lo))).



(** Python's [l[i]] on a list: negative indices count from the end. *)
Definition py_index {A} (l : list A) (i : Z) : option A :=
  let len := Z.of_nat (length l) in
  if (0 <=? i) && (i <? len) then nth_error l (Z.to_nat i)
  else if (- len <=? i) && (i <? 0) then nth_error l (Z.to_nat (len + i))
  else None.

Declare Scope ring_scope.
Declare Scope monad_scope.
Delimit Scope ring_scope with R.

Section Engine.

Variable K : CoeffRing.

Notation "0" := (zero K) : ring_scope.
Notation "1" := (one K) : ring_scope.
Notation "x + y" := (add K x y) : ring_scope.
Notation "x * y" := (mul K x y) : ring_scope.
Notation "x - y" := (sub K x y) : ring_scope.
Notation "- x" := (opp K x) : ring_scope.

(** Truth value of a ring element ([if val:]). *)
Definition truthy (a : K) : bool := negb (eqb K a 0%R).

(** ** Laurent polynomials

    The Laurent polynomial ring is an external collaborator; a polynomial is
    kept as its coefficient list together with the exponent of the first
    entry.  Only the queries the series code makes are provided. *)

Record lpoly : Type := LPoly { lp_shift : Z; lp_coeffs : list K }.

Definition lp_get (p : lpoly) (n : Z) : K :=
  if n <? lp_shift p then 0%R
  else nth (Z.to_nat (n - lp_shift p)) (lp_coeffs p) 0%R.

(** [not p] *)
Definition lp_is_zero (p : lpoly) : bool :=
  forallb (fun c => eqb K c 0%R) (lp_coeffs p).

Fixpoint first_nonzero (l : list K) (i : Z) : option Z :=
  match l with
  | [] => None
  | c :: l' => if truthy c then Some i else first_nonzero l' (i + 1)
  end.

Fixpoint last_nonzero (l : list K) (i : Z) (acc : option Z) : option Z :=
  match l with
  | [] => acc
  | c :: l' => last_nonzero l' (i + 1) (if truthy c then Some i else acc)
  end.

(** [p.valuation()] and [p.degree()] of a nonzero polynomial. *)
Definition lp_valuation (p : lpoly) : Z :=
  match first_nonzero (lp_coeffs p) (lp_shift p) with
  | Some v => v
  | None => 0
  end.

Definition lp_degree (p : lpoly) : Z :=
  match last_nonzero (lp_coeffs p) (lp_shift p) None with
  | Some d => d
  | None => -1
  end.

Definition lp_hi (p : lpoly) : Z := lp_shift p + Z.of_nat (length (lp_coeffs p)).

(** [p == q] *)
Definition lp_eqb (p q : lpoly) : bool :=
  forallb (fun n => eqb K (lp_get p n) (lp_get q n))
          (range (Z.min (lp_shift p) (lp_shift q)) (Z.max (lp_hi p) (lp_hi q))).

Definition lp_one : lpoly := LPoly 0 [1%R].
Definition lp_gen : lpoly := LPoly 1 [1%R].

(** [p + q] and [p - q] *)
Definition lp_pointwise (op : K -> K -> K) (p q : lpoly) : lpoly :=
  let lo := Z.min (lp_shift p) (lp_shift q) in
  LPoly lo (map (fun n => op (lp_get p n) (lp_get q n))
                (range lo (Z.max (lp_hi p) (lp_hi q)))).

(** [R([c]*(hi-lo)).shift(lo)] *)
Definition lp_block (c : K) (lo hi : Z) : lpoly :=
  LPoly lo (repeat c (Z.to_nat (hi - lo))).


(** [a * p] for a coefficient [a] *)
Definition lp_scale (a : K) (p : lpoly) : lpoly :=
  LPoly (lp_shift p) (map (fun c => (a * c)%R) (lp_coeffs p)).

(** [p * q] *)
Definition lp_mul (p q : lpoly) : lpoly :=
  let lo := lp_shift p + lp_shift q in
  let hi := lp_hi p + lp_hi q - 1 in
  LPoly lo
    (map (fun n =>
            fold_left (fun c k => (c + lp_get p k * lp_get q (n - k))%R)
                      (range (lp_shift p) (lp_hi p)) 0%R)
         (range lo hi)).

Definition lp_quo (p q : lpoly) : option lpoly :=
  match poly_quo K (lp_shift p, lp_coeffs p) (lp_shift q, lp_coeffs q) with
  | Some (s, l) => Some (LPoly s l)
  | None => None
  end.

(** ** Nodes and the store *)

Definition node_id := nat.

(** The state of the generator object [self._iter]: not yet started,
    suspended at a [yield] with the index it will produce next, running
    (a [next] on it raises), or finished after an exception left it. *)
Inductive gen_state : Type :=
| NotStarted
| Suspended (n : Z)
| Running
| Finished.

(** [self._cache] (with [_offset] and [_iter] in the dense case).  The
    sparse cache is a [dict]; its entries are kept in insertion order. *)
Inductive cache : Type :=
| NoCache
| Sparse (d : list (Z * K))
| Dense (l : list K) (offset : Z) (it : gen_state).

(** The classes of auxiliary nodes with their own attributes. *)
Inductive kind : Type :=
| K_zero
| K_eventually_geometric (p : lpoly) (constant : K) (degree : Z)
| K_coefficient_function (f : Z -> K)
| K_uninitialized (target : option node_id)
| K_add (left right : node_id)
| K_sub (left right : node_id)
| K_mul (left right : node_id)
| K_div (left right : node_id) (lv rv : Z) (ainv : K)
| K_composition (f g : node_id) (fv gv : Z)
                (neg_powers : list node_id) (pos_powers : list (option node_id))
| K_scalar (series : node_id) (scalar : K)
| K_neg (series : node_id)
| K_inv (series : node_id) (ainv : K)
| K_apply_coeff (series : node_id) (function : K -> K).

Record node : Type := Node {
  n_kind : kind;
  is_sparse : bool;
  approximate_valuation : Z;
  n_cache : cache
}.

(** The store: every node ever created, and the trace of coefficient
    requests ([__getitem__] calls, most recent first), which is ghost state
    used to state which coefficients a computation demands. *)
Record store : Type := Store {
  nodes : list node;
  demands : list (node_id * Z)
}.

Inductive error : Type :=
| ZeroDivisionError
| ValueError_positive_valuation   (* can only compose with a positive valuation series *)
| ValueError_already_defined      (* series already defined *)
| ValueError_undecidable          (* undecidable as lazy Laurent series *)
| ValueError_generator_running    (* generator already executing *)
| ValueError_degree               (* you must specify the degree for the polynomial 0 *)
| ValueError_not_polynomial       (* not a polynomial *)
| ValueError_range_step           (* range() arg 3 must not be zero *)
| NotImplementedError
| TypeError_none                  (* 'NoneType' object is not subscriptable *)
| TypeError_bool                  (* __bool__ should return bool *)
| StopIteration
| RuntimeError_generator          (* generator raised StopIteration *)
| IndexError
| KeyError
| AssertionError
| UnboundLocalError
| AttributeError                  (* a method or attribute the class of the node does not have *)
| InfiniteValuation               (* arithmetic on an infinite valuation *)
| OutOfFuel                       (* the model ran out of fuel: the Python code recurses or loops on *)
| DanglingReference.              (* an index outside the store; not raised on stores built by the operations *)

Inductive outcome (A : Type) : Type :=
| Ok (a : A) (st : store)
| Err (e : error) (st : store).
Arguments Err {A} e st.

(** What the caller sees of an outcome: the value returned or the
    exception raised. *)
Definition answer {A} (o : outcome A) : error + A :=
  match o with
  | Ok a _ => inr a
  | Err e _ => inl e
  end.

Definition final_store {A} (o : outcome A) : store :=
  match o with
  | Ok _ st => st
  | Err _ st => st
  end.

Definition M (A : Type) : Type := store -> outcome A.

Definition ret {A} (a : A) : M A := fun st => Ok a st.
Definition raise {A} (e : error) : M A := fun st => Err e st.
Definition bind {A B} (m : M A) (f : A -> M B) : M B :=
  fun st => match m st with
            | Ok a st' => f a st'
            | Err e st' => Err e st'
            end.
(** [try: m  except: h; raise] *)
Definition on_error {A} (m : M A) (h : M unit) : M A :=
  fun st => match m st with
            | Ok a st' => Ok a st'
            | Err e st' => match h st' with
                           | Ok _ st'' => Err e st''
                           | Err e' st'' => Err e' st''
                           end
            end.

(** The exceptions caught by [except (TypeError, ValueError)]. *)
Definition is_TypeError_or_ValueError (e : error) : bool :=
  match e with
  | ValueError_positive_valuation | ValueError_already_defined
  | ValueError_undecidable | ValueError_generator_running | ValueError_degree
  | ValueError_not_polynomial | ValueError_range_step
  | TypeError_none | TypeError_bool => true
  | _ => false
  end.
(** [try: m  except <caught>: pass] followed by [h] *)
Definition try_except {A} (caught : error -> bool) (m : M A) (h : M A) : M A :=
  fun st => match m st with
            | Ok a st' => Ok a st'
            | Err e st' => if caught e then h st' else Err e st'
            end.

Notation "x <- m ;; k" := (bind m (fun x => k))
  (at level 61, m at next level, right associativity) : monad_scope.
Notation "m ;;; k" := (bind m (fun _ => k))
  (at level 61, right associativity) : monad_scope.
Local Open Scope monad_scope.

Definition get_node (i : node_id) : M node :=
  fun st => match nth_error (nodes st) i with
            | Some nd => Ok nd st
            | None => Err DanglingReference st
            end.

Fixpoint list_update {A} (l : list A) (i : nat) (f : A -> A) : list A :=
  match l, i with
  | [], _ => []
  | x :: l', O => f x :: l'
  | x :: l', S i' => x :: list_update l' i' f
  end.

Definition update_node (i : node_id) (f : node -> node) : M unit :=
  fun st => Ok tt (Store (list_update (nodes st) i f) (demands st)).

Definition alloc (nd : node) : M node_id :=
  fun st => Ok (length (nodes st)) (Store (nodes st ++ [nd]) (demands st)).

Definition record_demand (i : node_id) (n : Z) : M unit :=
  fun st => Ok tt (Store (nodes st) ((i, n) :: demands st)).

Definition set_cache (c : cache) (nd : node) : node :=
  Node (n_kind nd) (is_sparse nd) (approximate_valuation nd) c.
Definition set_approximate_valuation (v : Z) (nd : node) : node :=
  Node (n_kind nd) (is_sparse nd) v (n_cache nd).
Definition set_kind (k : kind) (nd : node) : node :=
  Node k (is_sparse nd) (approximate_valuation nd) (n_cache nd).


(** ** Construction of nodes *)

(** [LazyLaurentSeries_inexact.__init__] *)
Definition inexact (k : kind) (sparse : bool) (v : Z) : node :=
  Node k sparse v (if sparse then Sparse [] else Dense [] v NotStarted).

(** [LazyLaurentSeries_zero(sparse)] *)
Definition LazyLaurentSeries_zero (sparse : bool) : node :=
  Node K_zero sparse 0 NoCache.

(** [LazyLaurentSeries_eventually_geometric(p, sparse, constant, degree)];
    [None] is an omitted argument. *)
Definition LazyLaurentSeries_eventually_geometric
    (p : lpoly) (sparse : bool) (constant : option K) (degree : option Z)
  : M node :=
  let constant := match constant with Some c => c | None => 0%R end in
  degree <- match degree with
            | None => if lp_is_zero p then raise ValueError_degree
                      else ret (lp_degree p + 1)
            | Some d => if lp_is_zero p || (lp_degree p <? d) then ret d
                        else raise AssertionError
            end ;;
  let valuation := if lp_is_zero p then degree else lp_valuation p in
  ret (Node (K_eventually_geometric p constant degree) sparse valuation NoCache).

Definition LazyLaurentSeries_coefficient_function
    (f : Z -> K) (sparse : bool) (v : Z) : node :=
  inexact (K_coefficient_function f) sparse v.

Definition LazyLaurentSeries_uninitialized (sparse : bool) (v : Z) : node :=
  inexact (K_uninitialized None) sparse v.

Definition LLS_add (l r : node_id) : M node :=
  left <- get_node l ;; right <- get_node r ;;
  if negb (Bool.eqb (is_sparse left) (is_sparse right)) then raise NotImplementedError
  else ret (inexact (K_add l r) (is_sparse left)
              (Z.min (approximate_valuation left) (approximate_valuation right))).


Definition LLS_mul (l r : node_id) : M node :=
  left <- get_node l ;; right <- get_node r ;;
  if negb (Bool.eqb (is_sparse left) (is_sparse right)) then raise NotImplementedError
  else ret (inexact (K_mul l r) (is_sparse left)
              (approximate_valuation left + approximate_valuation right)).

Definition LLS_scalar (s : node_id) (scalar : K) : M node :=
  series <- get_node s ;;
  ret (inexact (K_scalar s scalar) (is_sparse series) (approximate_valuation series)).


Definition LLS_apply_coeff (s : node_id) (function : K -> K) : M node :=
  series <- get_node s ;;
  ret (inexact (K_apply_coeff s function) (is_sparse series) (approximate_valuation series)).

(** ** Coefficient formulas ([get_coefficient] and [iterate_coefficients])

    The formulas read the coefficients of their operands through
    [__getitem__], which is passed in as [getitem] so that the evaluator can
    tie the recursive knot. *)

Inductive valuation_t : Type := Fin (v : Z) | PInf.

Definition approx (i : node_id) : M Z :=
  nd <- get_node i ;; ret (approximate_valuation nd).

(** [c = c0; for k in ks: c = body(k, c)] *)
Fixpoint for_range (ks : list Z) (body : Z -> K -> M K) (c : K) : M K :=
  match ks with
  | [] => ret c
  | k :: ks' => c' <- body k c ;; for_range ks' body c'
  end.

Definition py_get {A} (l : list A) (i : Z) : M A :=
  match py_index l i with
  | Some a => ret a
  | None => raise IndexError
  end.

Section Formulas.

Variable getitem : node_id -> Z -> M K.

Definition LLS_mul_get_coefficient (left right : node_id) (n : Z) : M K :=
  lv <- approx left ;;
  rv <- approx right ;;
  for_range (range lv (n - rv + 1))
    (fun k c =>
       val <- getitem left k ;;
       if truthy val
       then (b <- getitem right (n - k) ;; ret (c + val * b)%R)
       else ret c)
    0%R.

Definition LLS_div_get_coefficient
    (self left right : node_id) (lv rv : Z) (ainv : K) (n : Z) : M K :=
  if n =? lv - rv then
    a <- getitem left lv ;;
    b <- getitem right rv ;;
    match inv K b with
    | Some bi => ret (a * bi)%R
    | None => raise ZeroDivisionError
    end
  else
    c <- getitem left (n + rv) ;;
    c <- for_range (range (lv - rv) n)
           (fun k c =>
              x <- getitem self k ;;
              y <- getitem right (n + rv - k) ;;
              ret (c - x * y)%R)
           c ;;
    ret (c * ainv)%R.

Definition LLS_inv_get_coefficient
    (self series : node_id) (ainv : K) (n : Z) : M K :=
  v <- approx self ;;
  if n =? v then ret ainv
  else
    c <- for_range (range v n)
           (fun k c =>
              x <- getitem self k ;;
              y <- getitem series (n - v - k) ;;
              ret (c + x * y)%R)
           0%R ;;
    ret ((- c) * ainv)%R.

(** [while len(self._pos_powers) <= n // self._gv: ...append(LLS_mul(...))];
    [count] bounds the number of rounds. *)
Fixpoint grow_pos_powers (count : nat) (self : node_id) (n : Z) : M unit :=
  match count with
  | O => ret tt
  | S count' =>
    nd <- get_node self ;;
    match n_kind nd with
    | K_composition f g fv gv neg pos =>
      if Z.of_nat (length pos) <=? n / gv then
        last <- py_get pos (-1) ;;
        match last with
        | None => raise AttributeError
        | Some last =>
          m <- LLS_mul last g ;;
          i <- alloc m ;;
          update_node self (set_kind (K_composition f g fv gv neg (pos ++ [Some i]))) ;;;
          grow_pos_powers count' self n
        end
      else ret tt
    | _ => raise AttributeError
    end
  end.

Definition LLS_composition_get_coefficient (self : node_id) (n : Z) : M K :=
  nd <- get_node self ;;
  match n_kind nd with
  | K_composition f g fv gv neg _ =>
    let neg_sum (hi : Z) :=
      for_range (range fv hi)
        (fun i c =>
           a <- getitem f i ;;
           p <- py_get neg (- i) ;;
           b <- getitem p n ;;
           ret (c + a * b)%R)
        0%R in
    if n <? 0 then neg_sum (n / gv + 1)
    else
      grow_pos_powers (Z.to_nat (n / gv + 1)) self n ;;;
      r <- neg_sum 0 ;;
      r <- (if n =? 0 then (a <- getitem f 0 ;; ret (r + a)%R) else ret r) ;;
      nd' <- get_node self ;;
      match n_kind nd' with
      | K_composition _ _ _ _ _ pos =>
        s <- for_range (range 1 (n / gv + 1))
               (fun i c =>
                  a <- getitem f i ;;
                  p <- py_get pos i ;;
                  match p with
                  | None => raise TypeError_none
                  | Some p => b <- getitem p n ;; ret (c + a * b)%R
                  end)
               0%R ;;
        ret (r + s)%R
      | _ => raise AttributeError
      end
  | _ => raise AttributeError
  end.

(** [self.get_coefficient(n)], by the class of the node.  In every class
    the body of the loop of [iterate_coefficients] is the same expression,
    so the generator below reuses it.  The conversions [self._ring(...)]
    into the base ring are left out: coefficients are elements of [K]
    throughout. *)
Definition get_coefficient (self : node_id) (n : Z) : M K :=
  nd <- get_node self ;;
  match n_kind nd with
  | K_zero | K_eventually_geometric _ _ _ => raise AttributeError
  | K_coefficient_function f => ret (f n)
  | K_uninitialized None => raise TypeError_none
  | K_uninitialized (Some target) => getitem target n
  | K_add l r => a <- getitem l n ;; b <- getitem r n ;; ret (a + b)%R
  | K_sub l r => a <- getitem l n ;; b <- getitem r n ;; ret (a - b)%R
  | K_mul l r => LLS_mul_get_coefficient l r n
  | K_div l r lv rv ainv => LLS_div_get_coefficient self l r lv rv ainv n
  | K_composition _ _ _ _ _ _ => LLS_composition_get_coefficient self n
  | K_scalar s scalar => a <- getitem s n ;; ret (a * scalar)%R
  | K_neg s => a <- getitem s n ;; ret (- a)%R
  | K_inv s ainv => LLS_inv_get_coefficient self s ainv n
  | K_apply_coeff s function => a <- getitem s n ;; ret (function a)
  end.

(** *** The cache: [LazyLaurentSeries_inexact.__getitem__] *)

Fixpoint dict_get (d : list (Z * K)) (n : Z) : option K :=
  match d with
  | [] => None
  | (k, c) :: d' => if k =? n then Some c else dict_get d' n
  end.

Fixpoint dict_set (d : list (Z * K)) (n : Z) (c : K) : list (Z * K) :=
  match d with
  | [] => [(n, c)]
  | (k, c') :: d' => if k =? n then (k, c) :: d' else (k, c') :: dict_set d' n c
  end.

Definition cache_setitem (n : Z) (c : K) (nd : node) : node :=
  match n_cache nd with
  | Sparse d => set_cache (Sparse (dict_set d n c)) nd
  | _ => nd
  end.

Definition cache_append (c : K) (nd : node) : node :=
  match n_cache nd with
  | Dense l off it => set_cache (Dense (l ++ [c]) off it) nd
  | _ => nd
  end.

Definition set_iter (g : gen_state) (nd : node) : node :=
  match n_cache nd with
  | Dense l off _ => set_cache (Dense l off g) nd
  | _ => nd
  end.

(** The first index a generator produces: [n = self._offset], except for
    the two classes whose generator starts from the approximate valuation
    read when the generator first runs. *)
Definition iter_start (nd : node) (offset : Z) : Z :=
  match n_kind nd with
  | K_uninitialized _ | K_composition _ _ _ _ _ _ => approximate_valuation nd
  | _ => offset
  end.

(** [next(self._iter)] *)
Definition next_iter (self : node_id) : M K :=
  nd <- get_node self ;;
  match n_cache nd with
  | Dense _ off it =>
    let run (n : Z) :=
      update_node self (set_iter Running) ;;;
      c <- on_error (get_coefficient self n) (update_node self (set_iter Finished)) ;;
      update_node self (set_iter (Suspended (n + 1))) ;;;
      ret c in
    match it with
    | NotStarted => run (iter_start nd off)
    | Suspended n => run n
    | Running => raise ValueError_generator_running
    | Finished => raise StopIteration
    end
  | _ => raise AttributeError
  end.

(** The body of a generator expression: a [StopIteration] raised inside it
    leaves the expression as a [RuntimeError]. *)
Definition in_genexp {A} (m : M A) : M A :=
  fun st => match m st with
            | Err StopIteration st' => Err RuntimeError_generator st'
            | o => o
            end.

(** [self._cache.extend(next(self._iter) for _ in range(a, n+1))]: the
    items are appended one at a time, as the generator produces them. *)
Fixpoint cache_extend (count : nat) (self : node_id) : M unit :=
  match count with
  | O => ret tt
  | S count' =>
    c <- in_genexp (next_iter self) ;;
    update_node self (cache_append c) ;;;
    cache_extend count' self
  end.

Definition inexact_getitem (self : node_id) (n : Z) : M K :=
  nd <- get_node self ;;
  if n <? approximate_valuation nd then ret 0%R
  else if is_sparse nd then
    match n_cache nd with
    | Sparse d =>
      match dict_get d n with
      | Some c => ret c
      | None =>
        c <- get_coefficient self n ;;
        update_node self (cache_setitem n c) ;;;
        ret c
      end
    | _ => raise AttributeError
    end
  else
    match n_cache nd with
    | Dense l off _ =>
      let i := n - off in
      (if i >=? Z.of_nat (length l)
       then cache_extend (Z.to_nat (n + 1 - (Z.of_nat (length l) + off))) self
       else ret tt) ;;;
      nd' <- get_node self ;;
      match n_cache nd' with
      | Dense l' _ _ => py_get l' i
      | _ => raise AttributeError
      end
    | _ => raise AttributeError
    end.

End Formulas.

(** [aux[n]]: [__getitem__] of the class of the node.  [fuel] bounds the
    depth of nested coefficient requests. *)
Fixpoint getitem (fuel : nat) (self : node_id) (n : Z) {struct fuel} : M K :=
  match fuel with
  | O => raise OutOfFuel
  | S fuel' =>
    record_demand self n ;;;
    nd <- get_node self ;;
    match n_kind nd with
    | K_zero => ret 0%R
    | K_eventually_geometric p constant degree =>
      if n >=? degree then ret constant else ret (lp_get p n)
    | _ => inexact_getitem (getitem fuel') self n
    end
  end.

(** ** Valuation *)

(** The [while True] loop of [LazyLaurentSeries_inexact.valuation];
    [rounds] bounds the number of iterations (on a zero series the Python
    loop does not end). *)
Fixpoint valuation_loop (rounds fuel : nat) (self : node_id) (n : Z) : M Z :=
  match rounds with
  | O => raise OutOfFuel
  | S rounds' =>
    nd <- get_node self ;;
    let found := update_node self (set_approximate_valuation n) ;;; ret n in
    let next := valuation_loop rounds' fuel self (n + 1) in
    let probe := c <- getitem fuel self n ;; if truthy c then found else next in
    if is_sparse nd then
      match n_cache nd with
      | Sparse d =>
        match dict_get d n with
        | Some c => if truthy c then found else next
        | None => probe
        end
      | _ => raise AttributeError
      end
    else
      match n_cache nd with
      | Dense l off _ =>
        if n - off <? Z.of_nat (length l) then
          c <- py_get l (n - off) ;;
          if truthy c then found else next
        else probe
      | _ => raise AttributeError
      end
  end.

(** [aux.valuation()] *)
Definition valuation (rounds fuel : nat) (self : node_id) : M valuation_t :=
  nd <- get_node self ;;
  match n_kind nd with
  | K_zero => ret PInf
  | K_eventually_geometric _ _ _ => ret (Fin (approximate_valuation nd))
  | _ => v <- valuation_loop rounds fuel self (approximate_valuation nd) ;; ret (Fin v)
  end.

(** [series[v]] for a valuation [v]; only the zero node has an infinite
    one, and its [__getitem__] ignores the index. *)
Definition getitem_at (fuel : nat) (self : node_id) (v : valuation_t) : M K :=
  match v with
  | Fin v => getitem fuel self v
  | PInf => ret 0%R
  end.

(** [LLS_inv.__init__] *)
Definition LLS_inv (rounds fuel : nat) (s : node_id) : M node :=
  v <- valuation rounds fuel s ;;
  series <- get_node s ;;
  a <- getitem_at fuel s v ;;
  match inv K a with
  | None => raise ZeroDivisionError
  | Some ainv =>
    match v with
    | Fin v => ret (inexact (K_inv s ainv) (is_sparse series) (- v))
    | PInf => raise InfiniteValuation
    end
  end.

(** [LLS_div.__init__] *)
Definition LLS_div (rounds fuel : nat) (l r : node_id) : M node :=
  lv <- valuation rounds fuel l ;;
  rv <- valuation rounds fuel r ;;
  a <- getitem_at fuel r rv ;;
  match inv K a with
  | None => raise ZeroDivisionError
  | Some ainv =>
    left <- get_node l ;;
    match lv, rv with
    | Fin lv, Fin rv => ret (inexact (K_div l r lv rv ainv) (is_sparse left) (lv - rv))
    | _, _ => raise InfiniteValuation
    end
  end.

(** [for i in range(1, -self._fv): self._neg_powers.append(LLS_mul(self._neg_powers[-1], ginv))] *)
Fixpoint neg_powers_loop (count : nat) (ginv : node_id) (neg : list node_id)
  : M (list node_id) :=
  match count with
  | O => ret neg
  | S count' =>
    last <- py_get neg (-1) ;;
    m <- LLS_mul last ginv ;;
    i <- alloc m ;;
    neg_powers_loop count' ginv (neg ++ [i])
  end.

(** [LLS_composition.__init__] *)
Definition LLS_composition (rounds fuel : nat) (f g : node_id) : M node :=
  fnd <- get_node f ;;
  gnd <- get_node g ;;
  if negb (approximate_valuation gnd >? 0) then raise AssertionError
  else
    let fv := approximate_valuation fnd in
    let gv := approximate_valuation gnd in
    neg <- (if fv <? 0 then
              gi <- LLS_inv rounds fuel g ;;
              ginv <- alloc gi ;;
              z <- alloc (LazyLaurentSeries_zero (is_sparse fnd)) ;;
              neg_powers_loop (Z.to_nat (- fv - 1)) ginv [z; ginv]
            else ret []) ;;
    fnd <- get_node f ;;
    ret (inexact (K_composition f g fv gv neg [None; Some g]) (is_sparse fnd) (fv * gv)).

(** ** Equality of nodes ([__eq__])

    The unary and binary operator classes and the eventually geometric class
    define [__eq__]; every other class compares by identity.  [fuel] bounds
    the depth of the comparison. *)

Definition same_class (a b : kind) : bool :=
  match a, b with
  | K_add _ _, K_add _ _ | K_sub _ _, K_sub _ _ | K_mul _ _, K_mul _ _
  | K_div _ _ _ _ _, K_div _ _ _ _ _
  | K_composition _ _ _ _ _ _, K_composition _ _ _ _ _ _
  | K_scalar _ _, K_scalar _ _ | K_neg _, K_neg _ | K_inv _ _, K_inv _ _
  | K_apply_coeff _ _, K_apply_coeff _ _ => true
  | _, _ => false
  end.

Definition operands (k : kind) : list node_id :=
  match k with
  | K_add l r | K_sub l r | K_mul l r | K_div l r _ _ _
  | K_composition l r _ _ _ _ => [l; r]
  | K_scalar s _ | K_neg s | K_inv s _ | K_apply_coeff s _ => [s]
  | _ => []
  end.

Fixpoint node_eq (fuel : nat) (st : store) (a b : node_id) : option bool :=
  match fuel with
  | O => None
  | S fuel' =>
    match nth_error (nodes st) a, nth_error (nodes st) b with
    | Some na, Some nb =>
      match n_kind na, n_kind nb with
      | K_eventually_geometric p c d, K_eventually_geometric p' c' d' =>
        Some ((d =? d') && lp_eqb p p' && eqb K c c')
      | K_eventually_geometric _ _ _, _ => Some false
      | ka, kb =>
        match operands ka, operands kb with
        | [s], [s'] => if same_class ka kb then node_eq fuel' st s s' else Some false
        | [l; r], [l'; r'] =>
          if same_class ka kb then
            match node_eq fuel' st l l' with
            | Some true => node_eq fuel' st r r'
            | other => other
            end
          else Some false
        | [], _ => match kb with
                   | K_zero | K_coefficient_function _ | K_uninitialized _ => Some (Nat.eqb a b)
                   | _ => Some false
                   end
        | _, _ => Some false
        end
      end
    | _, _ => None
    end
  end.

Definition aux_eq (fuel : nat) (a b : node_id) : M bool :=
  fun st => match node_eq fuel st a b with
            | Some r => Ok r st
            | None => Err OutOfFuel st
            end.

(** ** Operations on series ([LazyLaurentSeries])

    A series wraps one auxiliary node and is represented by the index of
    that node.  [sparse] is [P._sparse] of the parent. *)

Section Series.

Variable sparse : bool.
(** Bounds on the valuation loop and on the depth of coefficient requests. *)
Variables rounds fuel : nat.

Definition is_zero_node (nd : node) : bool :=
  match n_kind nd with K_zero => true | _ => false end.

Definition is_geometric (nd : node) : bool :=
  match n_kind nd with K_eventually_geometric _ _ _ => true | _ => false end.

(** Modelled from the spec: the parent's [zero()], which lives in the ring
    module; it gives a series whose node is the zero node. *)
Definition P_zero : M node_id := alloc (LazyLaurentSeries_zero sparse).

Definition new_geometric (p : lpoly) (constant : option K) (degree : option Z)
  : M node_id :=
  nd <- LazyLaurentSeries_eventually_geometric p sparse constant degree ;;
  alloc nd.

(** [LazyLaurentSeries._mul_] *)
Definition _mul_ (self other : node_id) : M node_id :=
  left <- get_node self ;;
  right <- get_node other ;;
  let generic := nd <- LLS_mul self other ;; alloc nd in
  if is_zero_node left || is_zero_node right then P_zero
  else
    match n_kind left with
    | K_eventually_geometric pl cl _ =>
      if negb (truthy cl) then
        if lp_eqb pl lp_one then ret other
        else
          match n_kind right with
          | K_eventually_geometric pr cr _ =>
            if negb (truthy cr) then new_geometric (lp_mul pl pr) (Some cl) None
            else generic
          | _ => generic
          end
      else generic
    | _ =>
      match n_kind right with
      | K_eventually_geometric pr cr _ =>
        if negb (truthy cr) && lp_eqb pr lp_one then ret self else generic
      | _ => generic
      end
    end.

(** [LazyLaurentSeries._add_] *)
Definition _add_ (self other : node_id) : M node_id :=
  left <- get_node self ;;
  right <- get_node other ;;
  match n_kind left, n_kind right with
  | K_eventually_geometric pl cl dl, K_eventually_geometric pr cr dr =>
    let c := (cl + cr)%R in
    let d := Z.max dl dr in
    let pl := lp_pointwise (add K) pl (lp_block cl dl d) in
    let pr := lp_pointwise (add K) pr (lp_block cr dr d) in
    let p := lp_pointwise (add K) pl pr in
    if lp_is_zero p && negb (truthy c) then P_zero
    else new_geometric p (Some c) (Some d)
  | _, _ => nd <- LLS_add self other ;; alloc nd
  end.

(** [LazyLaurentSeries._div_]: the quotient of the polynomials is taken
    before the [try]; inside it, the conversion to a Laurent polynomial
    fails with [TypeError] ([lp_quo] gives [None]) and the constructor,
    called without a degree, raises [ValueError] on the polynomial 0; both
    are caught and the generic node is built. *)
Definition _div_ (self other : node_id) : M node_id :=
  right <- get_node other ;;
  if is_zero_node right then raise ZeroDivisionError
  else
    left <- get_node self ;;
    if is_zero_node left then P_zero
    else
      let generic :=
        i <- LLS_inv rounds fuel other ;;
        ri <- alloc i ;;
        nd <- LLS_mul self ri ;;
        alloc nd in
      match n_kind left, n_kind right with
      | K_eventually_geometric pl cl _, K_eventually_geometric pr cr _ =>
        if negb (truthy cl) && negb (truthy cr) then
          if lp_is_zero pr then raise ZeroDivisionError
          else
            match lp_quo pl pr with
            | Some q => try_except is_TypeError_or_ValueError
                          (new_geometric q (Some cl) None) generic
            | None => generic
            end
        else generic
      | _, _ => generic
      end.

(** [LazyLaurentSeries._rmul_] *)
Definition _rmul_ (self : node_id) (scalar : K) : M node_id :=
  if negb (truthy scalar) then P_zero
  else if eqb K scalar 1%R then ret self
  else
    nd <- get_node self ;;
    match n_kind nd with
    | K_eventually_geometric p c d =>
      new_geometric (lp_scale scalar p) (Some (scalar * c)%R) (Some d)
    | _ => a <- LLS_scalar self scalar ;; alloc a
    end.

(** [LazyLaurentSeries.__invert__] *)
Definition __invert__ (self : node_id) : M node_id :=
  nd <- get_node self ;;
  match n_kind nd with
  | K_eventually_geometric p c _ =>
    if lp_eqb p lp_gen then new_geometric (LPoly (-1) [1%R]) (Some c) None
    else i <- LLS_inv rounds fuel self ;; alloc i
  | K_inv series _ => ret series
  | _ => i <- LLS_inv rounds fuel self ;; alloc i
  end.

(** [any(g._aux[i] for i in ks)] followed by the [raise] *)
Fixpoint scan_any (g : node_id) (ks : list Z) : M bool :=
  match ks with
  | [] => ret false
  | i :: ks' =>
    c <- getitem fuel g i ;;
    if truthy c then ret true else scan_any g ks'
  end.

(** [LazyLaurentSeries.__call__] from the comment [g != 0 and val(g) > 0]
    on: the branch taken when [g] is a series whose node is not the zero
    node and [self] is neither the zero node nor a Laurent polynomial
    (an eventually geometric node with zero constant). *)
Definition __call__ (self g : node_id) : M node_id :=
  gnd <- get_node g ;;
  (if approximate_valuation gnd <=? 0 then
     f <- get_node self ;;
     found <- scan_any g (range 0 (approximate_valuation f)) ;;
     if found then raise ValueError_positive_valuation
     else update_node g (set_approximate_valuation 1)
   else ret tt) ;;;
  nd <- LLS_composition rounds fuel self g ;;
  alloc nd.

(** The loop of [_richcmp_]: [true] when it returns [False]. *)
Fixpoint scan_differ (self other : node_id) (ks : list Z) : M bool :=
  match ks with
  | [] => ret false
  | i :: ks' =>
    a <- getitem fuel self i ;;
    b <- getitem fuel other i ;;
    if negb (eqb K a b) then ret true else scan_differ self other ks'
  end.

(** [LazyLaurentSeries._richcmp_] with [op_EQ] *)
Definition _richcmp_ (self other : node_id) : M bool :=
  lhs <- get_node self ;;
  rhs <- get_node other ;;
  if is_zero_node lhs then ret (is_zero_node rhs)
  else if is_zero_node rhs then ret false
  else if negb (is_geometric lhs) || negb (is_geometric rhs) then
    let n := Z.min (approximate_valuation lhs) (approximate_valuation rhs) in
    let m := Z.max (approximate_valuation lhs) (approximate_valuation rhs) in
    differ <- scan_differ self other (range n m) ;;
    if differ then ret false
    else
      same <- aux_eq fuel self other ;;
      if same then ret true else raise ValueError_undecidable
  else aux_eq fuel self other.

(** [for a in self._aux._cache: if a: return True]: iterating a [dict]
    yields its keys, iterating a [list] its items. *)
Definition cache_any (c : cache) : bool :=
  match c with
  | Sparse d => existsb (fun kv => negb (fst kv =? 0)) d
  | Dense l _ _ => existsb truthy l
  | NoCache => false
  end.

(** [bool(self)], which calls [LazyLaurentSeries.__bool__].  On an
    eventually geometric node the method returns
    [self._aux._laurent_polynomial or self._aux._constant], which is the
    polynomial or the constant and never a [bool]: Python then raises
    [TypeError] ("__bool__ should return bool"). *)
Definition __bool__ (self : node_id) : M bool :=
  nd <- get_node self ;;
  match n_kind nd with
  | K_zero => ret false
  | K_eventually_geometric _ _ _ => raise TypeError_bool
  | _ =>
    if cache_any (n_cache nd) then ret true
    else
      c <- getitem fuel self (approximate_valuation nd) ;;
      if truthy c then ret true else raise ValueError_undecidable
  end.

(** [[R(self._aux[k]) for k in ks]]: the list [LazyLaurentSeries.__getitem__]
    returns for a slice whose indices are [ks]. *)
Fixpoint coefficients (self : node_id) (ks : list Z) : M (list K) :=
  match ks with
  | [] => ret []
  | k :: ks' =>
    c <- getitem fuel self k ;;
    cs <- coefficients self ks' ;;
    ret (c :: cs)
  end.






(** [LazyLaurentSeries.define] *)
Definition define (self s : node_id) : M unit :=
  nd <- get_node self ;;
  match n_kind nd with
  | K_uninitialized None => update_node self (set_kind (K_uninitialized (Some s)))
  | _ => raise ValueError_already_defined
  end.

(** [LazyLaurentSeries.map_coefficients]: in the branch for an eventually
    geometric node the first statement reads the local [p] before anything
    was assigned to it. *)
Definition map_coefficients (self : node_id) (func : K -> K) : M node_id :=
  nd <- get_node self ;;
  match n_kind nd with
  | K_eventually_geometric _ _ _ => raise UnboundLocalError
  | _ => a <- LLS_apply_coeff self func ;; alloc a
  end.

End Series.

End Engine.

Arguments Ok {K A} a st.
Arguments Err {K A} e st.
Arguments truthy {K} a.
Arguments dict_get {K} d n.
Arguments dict_set {K} d n c.
Arguments NoCache {K}.
Arguments Sparse {K} d.
Arguments Dense {K} l offset it.
Arguments K_zero {K}.
Arguments K_eventually_geometric {K} p constant degree.
Arguments K_coefficient_function {K} f.
Arguments K_uninitialized {K} target.
Arguments K_add {K} left right.
Arguments K_sub {K} left right.
Arguments K_mul {K} left right.
Arguments K_div {K} left right lv rv ainv.
Arguments K_composition {K} f g fv gv neg_powers pos_powers.
Arguments K_scalar {K} series scalar.
Arguments K_neg {K} series.
Arguments K_inv {K} series ainv.
Arguments K_apply_coeff {K} series function.

Notation "x <- m ;; k" := (bind m (fun x => k))
  (at level 61, m at next level, right associativity) : monad_scope.
Notation "m ;;; k" := (bind m (fun _ => k))
  (at level 61, right associativity) : monad_scope.
Local Open Scope monad_scope.

(** ** The integers as coefficient ring *)

Module ZZ_ring.

Fixpoint strip (l : list Z) : list Z :=
  match l with
  | 0 :: l' => strip l'
  | _ => l
  end.

(** [p - c * q] on the first entries of [p]. *)
Fixpoint sub_scaled (c : Z) (p q : list Z) : list Z :=
  match p, q with
  | a :: p', b :: q' => (a - c * b) :: sub_scaled c p' q'
  | _, _ => p
  end.

(** Long division of coefficient lists given highest degree first; the
    divisor starts with a nonzero entry. *)
Fixpoint divide (fuel : nat) (p q : list Z) : option (list Z) :=
  match fuel with
  | O => None
  | S fuel' =>
    if (length p <? length q)%nat then
      if forallb (Z.eqb 0) p then Some [] else None
    else
      match p, q with
      | a :: p', b :: q' =>
        if a mod b =? 0 then
          match divide fuel' (sub_scaled (a / b) p' q') q with
          | Some r => Some (a / b :: r)
          | None => None
          end
        else None
      | _, _ => None
      end
  end.

(** Exact division in the Laurent polynomial ring over the integers. *)
Definition quo (p q : Z * list Z) : option (Z * list Z) :=
  let ph := strip (rev (snd p)) in
  let qh := strip (rev (snd q)) in
  match qh with
  | [] => None
  | _ =>
    match divide (S (length ph)) ph qh with
    | Some r =>
      (* the quotient has degree deg p - deg q *)
      let deg := (fst p + Z.of_nat (length ph) - 1) - (fst q + Z.of_nat (length qh) - 1) in
      Some (deg - Z.of_nat (length r) + 1, rev r)
    | None => None
    end
  end.

(** [~a] inside the ring: only the units have an inverse there, and [~0]
    raises [ZeroDivisionError].  On the other integers Sage answers with a
    rational number, which is not an element of this ring; the instance has
    no value for them, and nothing below inverts one. *)
Definition inverse (a : Z) : option Z :=
  if a =? 1 then Some 1 else if a =? -1 then Some (-1) else None.

End ZZ_ring.

Definition ZZ : CoeffRing :=
  {| carrier := Z; zero := 0; one := 1; add := Z.add; mul := Z.mul;
     sub := Z.sub; opp := Z.opp; eqb := Z.eqb;
     inv := ZZ_ring.inverse; poly_quo := ZZ_ring.quo |}.

Definition empty_store (K : CoeffRing) : store K := Store [] [].

(** ** The Catalan series: [C = L(None); C.define(1 + z*C^2)] *)

Module Catalan.

Definition build (sparse : bool) : M ZZ node_id :=
  C <- alloc (LazyLaurentSeries_uninitialized ZZ sparse 0) ;;
  z <- new_geometric sparse (lp_gen ZZ) None None ;;
  u <- new_geometric sparse (lp_one ZZ) None None ;;
  C2 <- _mul_ sparse C C ;;
  zC2 <- _mul_ sparse z C2 ;;
  e <- _add_ sparse u zC2 ;;
  define C e ;;;
  ret C.

(** The six nodes of the dense construction, in the order [build]
    creates them: the placeholder [C], [z], [1], [C^2], [z*C^2] and
    [1 + z*C^2], with the caches and the generators as parameters. *)
Definition state (cs es ps qs : list Z) (iC iE iP iQ : gen_state)
    (dem : list (node_id * Z)) : store ZZ :=
  Store [Node (K:=ZZ) (K_uninitialized (Some 5%nat)) false 0 (Dense (K:=ZZ) cs 0 iC);
         Node (K:=ZZ) (K_eventually_geometric (lp_gen ZZ) 0 2) false 1 NoCache;
         Node (K:=ZZ) (K_eventually_geometric (lp_one ZZ) 0 1) false 0 NoCache;
         Node (K:=ZZ) (K_mul 0%nat 0%nat) false 0 (Dense (K:=ZZ) qs 0 iQ);
         Node (K:=ZZ) (K_mul 1%nat 3%nat) false 1 (Dense (K:=ZZ) ps 1 iP);
         Node (K:=ZZ) (K_add 2%nat 4%nat) false 0 (Dense (K:=ZZ) es 0 iE)]
        dem.

(** A generator that has produced [len] coefficients from [start] on. *)
Definition resting (start : Z) (len : nat) : gen_state :=
  match len with
  | O => NotStarted
  | S _ => Suspended (start + Z.of_nat len)
  end.

(** The stores in which the first [a] coefficients of [C] are computed and
    no computation is in progress. *)
Definition computed (a : nat) (st : store ZZ) : Prop :=
  exists cs es ps qs,
    length cs = a /\ length es = a
    /\ length ps = (a - 1)%nat /\ length qs = (a - 1)%nat
    /\ nodes st = nodes (state cs es ps qs (resting 0 a) (resting 0 a)
                          (resting 1 (a - 1)) (resting 0 (a - 1)) []).

(** The store in which the first [a] coefficients of [C] are computed, with
    its caches and its trace. *)
Definition at_rest (a : nat) (cs es ps qs : list Z) (dem : list (node_id * Z))
  : store ZZ :=
  state cs es ps qs (resting 0 a) (resting 0 a)
        (resting 1 (a - 1)) (resting 0 (a - 1)) dem.

(** The six nodes of the sparse construction, with their caches. *)
Definition sparse_state (dC dE dP dQ : list (Z * Z)) (dem : list (node_id * Z))
  : store ZZ :=
  Store [Node (K:=ZZ) (K_uninitialized (Some 5%nat)) true 0 (Sparse (K:=ZZ) dC);
         Node (K:=ZZ) (K_eventually_geometric (lp_gen ZZ) 0 2) true 1 NoCache;
         Node (K:=ZZ) (K_eventually_geometric (lp_one ZZ) 0 1) true 0 NoCache;
         Node (K:=ZZ) (K_mul 0%nat 0%nat) true 0 (Sparse (K:=ZZ) dQ);
         Node (K:=ZZ) (K_mul 1%nat 3%nat) true 1 (Sparse (K:=ZZ) dP);
         Node (K:=ZZ) (K_add 2%nat 4%nat) true 0 (Sparse (K:=ZZ) dE)]
        dem.

(** The stores of the sparse construction, whatever their caches hold. *)
Definition sparse_shape (st : store ZZ) : Prop :=
  exists dC dE dP dQ, nodes st = nodes (sparse_state dC dE dP dQ []).

(** A recorded request that, if it is on [C], is for an index below [n]. *)
Definition below (n : Z) (d : node_id * Z) : Prop :=
  fst d = 0%nat -> snd d < n.

(** The stores of the sparse construction reached while [C[n]] is being
    computed from a store whose trace was [base]: every request recorded
    since then respects [below n]. *)
Definition within (n : Z) (base : list (node_id * Z)) (st : store ZZ) : Prop :=
  exists dC dE dP dQ new,
    st = sparse_state dC dE dP dQ (new ++ base) /\ Forall (below n) new.

(** The request [aux_i[k]] returns from every store reached while [C[n]]
    is computed, and leaves such a store. *)
Definition returns (F : nat) (i : node_id) (k n : Z) : Prop :=
  forall base st, within n base st ->
    exists (v : Z) (st' : store ZZ),
      getitem F i k st = Ok (v : ZZ) st' /\ within n base st'.

(** The store right after [C.define(1 + z*C^2)]. *)
Definition initial (sparse : bool) : store ZZ :=
  final_store (build sparse (empty_store ZZ)).

End Catalan.

(** ** Specification vocabulary *)

(** The sum of [f k] for [k] running through [ks], accumulated from the
    left as the loops of the code do. *)
Definition big_sum {K : CoeffRing} (ks : list Z) (f : Z -> K) : K :=
  fold_left (fun c k => add K c (f k)) ks (zero K).

(** What is assumed of the coefficient ring: it is a commutative ring, its
    equality test decides equality, and [~a], when it answers, is the
    inverse of [a]. *)
Record CoeffRingLaws (K : CoeffRing) : Prop := {
  ring_laws : ring_theory (zero K) (one K) (add K) (mul K) (sub K) (opp K) eq;
  eqb_eq : forall a b : K, eqb K a b = true <-> a = b;
  inv_left : forall a b : K, inv K a = Some b -> mul K b a = one K
}.

(** The store after the request [aux_i[n]] was recorded. *)
Definition requested {K : CoeffRing} (i : node_id) (n : Z) (st : store K) : store K :=
  Store (nodes st) ((i, n) :: demands st).

(** The nodes of the subclasses of [LazyLaurentSeries_inexact]. *)
Definition is_inexact {K : CoeffRing} (nd : node K) : bool :=
  negb (is_zero_node nd || is_geometric nd).

(** The generator of a dense node is about to produce the coefficient of
    index [n]. *)
Definition resting_at {K : CoeffRing} (nd : node K) (n : Z) : Prop :=
  match n_cache nd with
  | Dense _ off (Suspended m) => m = n
  | Dense _ off NotStarted => iter_start nd off = n
  | _ => False
  end.

(** *** The coefficient sequences of an inverse and of a quotient

    [LLS_inv_next] is the formula of [LLS_inv.get_coefficient] at the index
    that follows the coefficients [t] already produced, the requests
    [self[k]] being answered from [t]; [v] is the approximate valuation of
    the node and [series] the coefficients of its operand. *)
Definition LLS_inv_next {K : CoeffRing} (series : Z -> K) (v : Z) (ainv : K)
    (t : list K) : K :=
  let n := v + Z.of_nat (length t) in
  if n =? v then ainv
  else mul K (opp K (big_sum (range v n)
                       (fun k => mul K (nth (Z.to_nat (k - v)) t (zero K))
                                       (series (n - v - k)))))
             ainv.

Fixpoint LLS_inv_table {K : CoeffRing} (series : Z -> K) (v : Z) (ainv : K)
    (m : nat) : list K :=
  match m with
  | O => []
  | S m' => let t := LLS_inv_table series v ainv m' in
            t ++ [LLS_inv_next series v ainv t]
  end.

(** The coefficient at [n] of the node [LLS_inv(series)]. *)
Definition LLS_inv_coefficient {K : CoeffRing} (series : Z -> K) (v : Z) (ainv : K)
    (n : Z) : K :=
  if n <? v then zero K
  else nth (Z.to_nat (n - v)) (LLS_inv_table series v ainv (S (Z.to_nat (n - v))))
           (zero K).

(** The coefficient at [n] of [LLS_mul(left, LLS_inv(right))], the node
    that [_div_] builds: the convolution sum of [LLS_mul.get_coefficient]
    from the approximate valuation [al] of [left] to [n] minus the
    approximate valuation [-rv] of the inverse. *)
Definition quotient_coefficient {K : CoeffRing} (left right : Z -> K)
    (al rv : Z) (ainv : K) (n : Z) : K :=
  big_sum (range al (n - (- rv) + 1))
    (fun k => mul K (left k) (LLS_inv_coefficient right (- rv) ainv (n - k))).

(** The recurrence of the specification for the quotient of [left], of
    valuation [lv], by [right], of valuation [rv], division by [right[rv]]
    being multiplication by its inverse [ainv]:
    c[lv-rv] = left[lv]/right[rv] and, above,
    c[n] = (left[n+rv] - sum over k < n of c[k]*right[n+rv-k]) / right[rv]. *)
Definition division_recurrence {K : CoeffRing} (left right : Z -> K)
    (lv rv : Z) (ainv : K) (c : Z -> K) : Prop :=
  (forall n, n < lv - rv -> c n = zero K)
  /\ c (lv - rv) = mul K (left lv) ainv
  /\ (forall n, lv - rv < n ->
        c n = mul K (sub K (left (n + rv))
                           (big_sum (range (lv - rv) n)
                              (fun k => mul K (c k) (right (n + rv - k)))))
                    ainv).

(** A request [rec i k] behaves as reading the sequence [f] under the
    invariant [I] of the store when, from every store satisfying [I], it
    returns [f k] and re-establishes [I]. *)
Definition reads {K : CoeffRing} (I : store K -> Prop)
    (rec : node_id -> Z -> M K K) (i : node_id) (f : Z -> K) (k : Z) : Prop :=
  forall st, I st -> exists st', rec i k st = Ok (f k) st' /\ I st'.




(** ** Example stores over the integers *)

Module Examples.

(** [z = L.gen()] alone. *)
Definition gen_store : store ZZ :=
  Store [Node (K:=ZZ) (K_eventually_geometric (lp_gen ZZ) 0 2) false 1 (NoCache)] [].

(** [e = L(None); e.define(z)]: node 0 is [e], node 1 is [z]. *)
Definition bound_store : store ZZ :=
  Store [Node (K:=ZZ) (K_uninitialized (Some 1%nat)) false 0 (Dense [] 0 NotStarted);
         Node (K:=ZZ) (K_eventually_geometric (lp_gen ZZ) 0 2) false 1 (NoCache)] [].

(** [L.zero()] at node 0 and [z] at node 1. *)
Definition zero_store : store ZZ :=
  Store [LazyLaurentSeries_zero ZZ false;
         Node (K:=ZZ) (K_eventually_geometric (lp_gen ZZ) 0 2) false 1 (NoCache)] [].

(** [f = L(lambda n: 1); g = L(lambda n: 1)] in the dense implementation:
    both are 1 + z + z^2 + ..., of valuation 0. *)
Definition ones_store : store ZZ :=
  Store [LazyLaurentSeries_coefficient_function ZZ (fun _ => 1) false 0;
         LazyLaurentSeries_coefficient_function ZZ (fun _ => 1) false 0] [].

(** The store after [f(g)]: node 2 is the composition. *)
Definition ones_store_composed : store ZZ :=
  Store [LazyLaurentSeries_coefficient_function ZZ (fun _ => 1) false 0;
         Node (K:=ZZ) (K_coefficient_function (K:=ZZ) (fun _ => 1)) false 1 (Dense [] 0 NotStarted);
         Node (K:=ZZ) (K_composition 0%nat 1%nat 0 1 [] [None; Some 1%nat]) false 0
              (Dense [] 0 NotStarted)] [].

(** [M = L(lambda n: 0)] in the sparse implementation, before and after
    the request [M[1]]. *)
Definition null_store : store ZZ :=
  Store [LazyLaurentSeries_coefficient_function ZZ (fun _ => 0) true 0] [].

Definition null_store_queried : store ZZ :=
  Store [Node (K:=ZZ) (K_coefficient_function (K:=ZZ) (fun _ => 0)) true 0 (Sparse (K:=ZZ) [(1, 0)])]
        [(0%nat, 1)].

(** [(1 + z) * z]: node 0 is [1 + z], node 1 is [z]. *)
Definition product_store : store ZZ :=
  Store [Node (K:=ZZ) (K_eventually_geometric (LPoly ZZ 0 [1; 1]) 0 2) false 0 NoCache;
         Node (K:=ZZ) (K_eventually_geometric (lp_gen ZZ) 0 2) false 1 NoCache] [].


(** [M = L(lambda n: n); N = L(lambda n: 1)] in the dense implementation,
    and their coefficient sequences. *)
Definition quotient_store : store ZZ :=
  Store [LazyLaurentSeries_coefficient_function ZZ (fun n => n) false 0;
         LazyLaurentSeries_coefficient_function ZZ (fun _ => 1) false 0] [].

Definition M_coefficients (k : Z) : ZZ := if k <? 0 then 0 else k.
Definition N_coefficients (k : Z) : ZZ := if k <? 0 then 0 else 1.

(** [M = L(lambda n: n)] alone, and the store after [A = 2*M; B = 3*M]:
    node 1 is [A], node 2 is [B]. *)
Definition M_store : store ZZ :=
  Store [LazyLaurentSeries_coefficient_function ZZ (fun n => n) false 0] [].

Definition multiples_store : store ZZ :=
  Store [LazyLaurentSeries_coefficient_function ZZ (fun n => n) false 0;
         Node (K:=ZZ) (K_scalar (K:=ZZ) 0%nat 2) false 0 (Dense [] 0 NotStarted);
         Node (K:=ZZ) (K_scalar (K:=ZZ) 0%nat 3) false 0 (Dense [] 0 NotStarted)] [].




(** The stores with the same nodes as [st0]; only the trace of requests
    may differ. *)
Definition same_nodes {K : CoeffRing} (st0 st : store K) : Prop :=
  nodes st = nodes st0.

End Examples.

(** * Properties *)

Unset Implicit Arguments.

Section Properties.

Variable K : CoeffRing.

(** C10: [define] on a series whose node is not an unbound placeholder (an
    ordinary or closed-form series, or a placeholder already bound) raises
    "series already defined" and leaves the store, hence the series, exactly
    as it was. *)
Theorem define_already_defined :
  forall (st : store K) (self s : node_id) (nd : node K),
    nth_error (nodes st) self = Some nd ->
    n_kind nd <> K_uninitialized None ->
    define self s st = Err ValueError_already_defined st.
Proof.
  intros st self s nd Hnd Hk.
  unfold define, bind, get_node. rewrite Hnd.
  destruct (n_kind nd) as [ | | |[t|]| | | | | | | | | ]; try reflexivity.
  contradiction.
Qed.

(** On an unbound placeholder [define] succeeds and records the target. *)
Lemma define_unbound :
  forall (st : store K) (self s : node_id) (nd : node K),
    nth_error (nodes st) self = Some nd ->
    n_kind nd = K_uninitialized None ->
    define self s st =
    Ok tt (Store (list_update (nodes st) self (set_kind (K_uninitialized (Some s))))
                 (demands st)).
Proof.
  intros st self s nd Hnd Hk.
  unfold define, bind, get_node. rewrite Hnd, Hk. reflexivity.
Qed.

(** C5: dividing by a series whose node is the zero node, and inverting
    such a series, raise [ZeroDivisionError] at once, for every bound on the
    evaluation: nothing is computed and the store is left as it was. *)
Theorem zero_division :
  forall (sparse : bool) (rounds fuel : nat) (st : store K)
         (self other : node_id) (nd : node K),
    inv K (zero K) = None ->
    nth_error (nodes st) other = Some nd ->
    n_kind nd = K_zero ->
    _div_ sparse rounds fuel self other st = Err ZeroDivisionError st
    /\ __invert__ sparse rounds fuel other st = Err ZeroDivisionError st.
Proof.
  intros sparse rounds fuel st self other [k sp av ca] Hinv Hnd Hk.
  simpl in Hk; subst k. split.
  - unfold _div_, bind, get_node. rewrite Hnd. reflexivity.
  - unfold __invert__, LLS_inv, valuation, getitem_at, bind, get_node.
    rewrite Hnd. cbn. rewrite Hnd. cbn. rewrite Hnd. cbn. rewrite Hinv. reflexivity.
Qed.

(** *** Loops *)

Lemma for_range_inv :
  forall (I : store K -> Prop) (body : Z -> K -> M K K) (g : Z -> K -> K)
         (ks : list Z) (c : K),
    (forall k c st, In k ks -> I st ->
        exists st', body k c st = Ok (g k c) st' /\ I st') ->
    forall st, I st ->
    exists st', for_range ks body c st = Ok (fold_left (fun c k => g k c) ks c) st'
                /\ I st'.
Proof.
  intros I body g ks. induction ks as [|k ks IH]; intros c Hbody st HI.
  - exists st. split; [reflexivity|assumption].
  - destruct (Hbody k c st (or_introl eq_refl) HI) as (st1 & E1 & HI1).
    destruct (IH (g k c) (fun k' c' s Hin => Hbody k' c' s (or_intror Hin)) st1 HI1)
      as (st2 & E2 & HI2).
    exists st2. split; [|assumption].
    cbn. unfold bind. rewrite E1. exact E2.
Qed.

Lemma in_range : forall lo hi k, In k (range lo hi) <-> lo <= k < hi.
Proof.
  intros lo hi k. unfold range. rewrite in_map_iff. split.
  - intros (i & <- & Hi). apply in_seq in Hi. lia.
  - intros Hk. exists (Z.to_nat (k - lo)). split; [lia|].
    apply in_seq. lia.
Qed.

(** *** Requests answered by the guard, by the cache or by a closed form *)

Lemma getitem_unfold :
  forall (fuel : nat) (i : node_id) (n : Z) (st : store K) (nd : node K),
    nth_error (nodes st) i = Some nd ->
    getitem (S fuel) i n st
    = match n_kind nd with
      | K_zero => ret (zero K)
      | K_eventually_geometric p c d => if n >=? d then ret c else ret (lp_get p n)
      | _ => inexact_getitem (getitem fuel) i n
      end (requested i n st).
Proof.
  intros fuel i n st nd H. cbn [getitem]. unfold bind at 1 2, record_demand, get_node.
  cbn [nodes]. rewrite H. reflexivity.
Qed.

Lemma getitem_inexact :
  forall (fuel : nat) (i : node_id) (n : Z) (st : store K) (nd : node K),
    nth_error (nodes st) i = Some nd ->
    is_inexact nd = true ->
    getitem (S fuel) i n st = inexact_getitem (getitem fuel) i n (requested i n st).
Proof.
  intros fuel i n st nd H Hi. rewrite (getitem_unfold fuel i n st nd H).
  unfold is_inexact, is_zero_node, is_geometric in Hi.
  destruct (n_kind nd); try reflexivity; discriminate.
Qed.

(** Below the approximate valuation the answer is zero and the formula of
    the node is not consulted: nothing but the trace changes. *)
Lemma getitem_below_valuation :
  forall (fuel : nat) (i : node_id) (n : Z) (st : store K) (nd : node K),
    nth_error (nodes st) i = Some nd ->
    is_inexact nd = true ->
    n < approximate_valuation nd ->
    getitem (S fuel) i n st = Ok (zero K) (requested i n st).
Proof.
  intros fuel i n st nd H Hi Hn. rewrite (getitem_inexact fuel i n st nd H Hi).
  unfold inexact_getitem, bind, get_node. cbn [requested nodes]. rewrite H.
  now assert ((n <? approximate_valuation nd) = true) as -> by lia.
Qed.

Lemma getitem_geometric :
  forall (fuel : nat) (i : node_id) (n : Z) (st : store K) (nd : node K)
         (p : lpoly K) (c : K) (d : Z),
    nth_error (nodes st) i = Some nd ->
    n_kind nd = K_eventually_geometric p c d ->
    getitem (S fuel) i n st
    = Ok (if n >=? d then c else lp_get p n) (requested i n st).
Proof.
  intros fuel i n st nd p c d H Hk. rewrite (getitem_unfold fuel i n st nd H), Hk.
  now destruct (n >=? d).
Qed.

Lemma py_index_nth :
  forall (A : Type) (l : list A) (i : Z) (d : A),
    0 <= i < Z.of_nat (length l) -> py_index l i = Some (nth (Z.to_nat i) l d).
Proof.
  intros A l i d H. unfold py_index.
  assert (((0 <=? i) && (i <? Z.of_nat (length l))) = true) as ->
      by (apply andb_true_iff; lia).
  apply nth_error_nth'. lia.
Qed.

(** A coefficient already in the dense cache is returned from it. *)
Lemma getitem_dense_hit :
  forall (fuel : nat) (i : node_id) (n : Z) (st : store K) (nd : node K)
         (l : list K) (off : Z) (it : gen_state),
    nth_error (nodes st) i = Some nd ->
    is_inexact nd = true ->
    is_sparse nd = false ->
    n_cache nd = Dense l off it ->
    approximate_valuation nd <= n ->
    0 <= n - off < Z.of_nat (length l) ->
    getitem (S fuel) i n st
    = Ok (nth (Z.to_nat (n - off)) l (zero K)) (requested i n st).
Proof.
  intros fuel i n st nd l off it H Hi Hs Hc Hv Hn.
  rewrite (getitem_inexact fuel i n st nd H Hi).
  unfold inexact_getitem, bind, get_node. cbn [requested nodes]. rewrite H.
  assert ((n <? approximate_valuation nd) = false) as -> by lia.
  rewrite Hs, Hc.
  assert ((n - off >=? Z.of_nat (length l)) = false) as -> by lia.
  unfold ret. cbn [requested nodes]. rewrite H, Hc. unfold py_get.
  now rewrite (py_index_nth K l (n - off) (zero K)) by lia.
Qed.

Lemma nth_error_list_update :
  forall (A : Type) (l : list A) (i : nat) (f : A -> A) (x : A),
    nth_error l i = Some x -> nth_error (list_update l i f) i = Some (f x).
Proof.
  intros A l. induction l as [|y l IH]; intros [|i] f x H; try discriminate.
  - now injection H as ->.
  - cbn in *. now apply IH.
Qed.

(** A resting generator produces its next coefficient with the formula of
    the node; while the formula runs the generator is marked as running. *)
Lemma next_iter_resting :
  forall (rec : node_id -> Z -> M K K) (i : node_id) (n : Z) (st st2 : store K)
         (nd : node K) (c : K),
    nth_error (nodes st) i = Some nd ->
    resting_at nd n ->
    get_coefficient rec i n
      (Store (list_update (nodes st) i (set_iter Running)) (demands st))
    = Ok c st2 ->
    next_iter rec i st
    = Ok c (Store (list_update (nodes st2) i (set_iter (Suspended (n + 1))))
                  (demands st2)).
Proof.
  intros rec i n st st2 nd c H Hrest Hget.
  unfold next_iter. unfold bind at 1, get_node. rewrite H.
  assert (Hrun :
            (update_node i (set_iter Running) ;;;
             c0 <- on_error (get_coefficient rec i n)
                            (update_node i (set_iter Finished)) ;;
             update_node i (set_iter (Suspended (n + 1))) ;;; ret c0) st
            = Ok c (Store (list_update (nodes st2) i (set_iter (Suspended (n + 1))))
                          (demands st2))).
  { unfold bind, update_node, on_error. now rewrite Hget. }
  unfold resting_at in Hrest.
  destruct (n_cache nd) as [| |l off it]; try contradiction.
  destruct it; try contradiction; subst; exact Hrun.
Qed.

(** The dense cache misses the coefficient of index [n] by one: the
    generator produces it with the formula of the node and the cache grows
    by that coefficient. *)
Lemma getitem_dense_next :
  forall (fuel : nat) (i : node_id) (n : Z) (st st2 : store K) (nd nd2 : node K)
         (l : list K) (off : Z) (it : gen_state) (c : K),
    nth_error (nodes st) i = Some nd ->
    is_inexact nd = true ->
    is_sparse nd = false ->
    n_cache nd = Dense l off it ->
    approximate_valuation nd <= n ->
    n - off = Z.of_nat (length l) ->
    resting_at nd n ->
    get_coefficient (getitem fuel) i n
      (Store (list_update (nodes st) i (set_iter Running)) ((i, n) :: demands st))
    = Ok c st2 ->
    nth_error (nodes st2) i = Some nd2 ->
    n_cache nd2 = Dense l off Running ->
    getitem (S fuel) i n st
    = Ok c (Store (list_update
                     (list_update (nodes st2) i (set_iter (Suspended (n + 1))))
                     i (cache_append c))
                  (demands st2)).
Proof.
  intros fuel i n st st2 nd nd2 l off it c H Hi Hs Hc Hv Hn Hrest Hget H2 Hc2.
  rewrite (getitem_inexact fuel i n st nd H Hi).
  unfold inexact_getitem. unfold bind at 1, get_node. cbn [requested nodes].
  rewrite H.
  assert ((n <? approximate_valuation nd) = false) as -> by lia.
  rewrite Hs, Hc.
  assert ((n - off >=? Z.of_nat (length l)) = true) as -> by lia.
  replace (Z.to_nat (n + 1 - (Z.of_nat (length l) + off))) with 1%nat by lia.
  unfold requested. simpl (cache_extend _ 1 _). unfold bind, in_genexp.
  rewrite (next_iter_resting (getitem fuel) i n
             (Store (nodes st) ((i, n) :: demands st)) st2 nd c H Hrest Hget).
  unfold update_node, ret, get_node. cbn [nodes demands].
  rewrite (nth_error_list_update _ _ i (cache_append c)
             (set_iter (Suspended (n + 1)) nd2))
    by now apply nth_error_list_update.
  unfold set_iter, cache_append. rewrite Hc2. cbn.
  unfold py_get. rewrite (py_index_nth K (l ++ [c]) (n - off) (zero K))
    by (rewrite length_app; cbn; lia).
  rewrite Hn, Nat2Z.id, app_nth2, Nat.sub_diag by lia. reflexivity.
Qed.

(** A coefficient in the sparse cache is returned from it; one that is not
    there is computed with the formula of the node and stored. *)
Lemma inexact_getitem_sparse :
  forall (rec : node_id -> Z -> M K K) (i : node_id) (n : Z) (st : store K)
         (nd : node K) (d : list (Z * K)),
    nth_error (nodes st) i = Some nd ->
    is_sparse nd = true ->
    n_cache nd = Sparse d ->
    inexact_getitem rec i n st
    = if n <? approximate_valuation nd then Ok (zero K) st
      else match dict_get d n with
           | Some c => Ok c st
           | None =>
             match get_coefficient rec i n st with
             | Ok c st2 =>
               Ok c (Store (list_update (nodes st2) i (cache_setitem n c)) (demands st2))
             | Err e st2 => Err e st2
             end
           end.
Proof.
  intros rec i n st nd d H Hs Hc.
  unfold inexact_getitem. unfold bind at 1, get_node. rewrite H.
  destruct (n <? approximate_valuation nd); [reflexivity|].
  rewrite Hs, Hc. destruct (dict_get d n); [reflexivity|].
  unfold bind. destruct (get_coefficient rec i n st); reflexivity.
Qed.

(** A loop whose body returns from every store satisfying [I], and
    re-establishes [I], returns. *)
Lemma for_range_total :
  forall (I : store K -> Prop) (body : Z -> K -> M K K) (ks : list Z) (c : K),
    (forall k c st, In k ks -> I st ->
        exists c' st', body k c st = Ok c' st' /\ I st') ->
    forall st, I st ->
    exists c' st', for_range ks body c st = Ok c' st' /\ I st'.
Proof.
  intros I body ks. induction ks as [|k ks IH]; intros c Hbody st HI.
  - exists c, st. split; [reflexivity|assumption].
  - destruct (Hbody k c st (or_introl eq_refl) HI) as (c1 & st1 & E1 & HI1).
    destruct (IH c1 (fun k' c' s Hin => Hbody k' c' s (or_intror Hin)) st1 HI1)
      as (c2 & st2 & E2 & HI2).
    exists c2, st2. split; [|assumption].
    cbn. unfold bind. rewrite E1. exact E2.
Qed.



Section WithLaws.

Hypothesis laws : CoeffRingLaws K.

Add Ring coeff_ring : (ring_laws laws).

Lemma truthy_false : forall a : K, truthy a = false -> a = zero K.
Proof.
  intros a H. unfold truthy in H. apply negb_false_iff in H.
  now apply (eqb_eq laws).
Qed.

(** *** Finite sums *)

Notation "0" := (zero K) : ring_scope.
Notation "1" := (one K) : ring_scope.
Notation "x + y" := (add K x y) : ring_scope.
Notation "x * y" := (mul K x y) : ring_scope.
Notation "x - y" := (sub K x y) : ring_scope.
Notation "- x" := (opp K x) : ring_scope.

Lemma fold_add_acc :
  forall (f : Z -> K) (ks : list Z) (c : K),
    fold_left (fun c k => (c + f k)%R) ks c = (c + big_sum ks f)%R.
Proof.
  intros f ks. unfold big_sum. induction ks as [|k ks IH]; intros c; cbn.
  - ring.
  - rewrite IH, (IH (0 + f k)%R). ring.
Qed.

Lemma big_sum_nil : forall f : Z -> K, big_sum [] f = 0%R.
Proof. reflexivity. Qed.

Lemma big_sum_cons :
  forall (f : Z -> K) k ks, big_sum (k :: ks) f = (f k + big_sum ks f)%R.
Proof.
  intros f k ks. unfold big_sum at 1. cbn. rewrite fold_add_acc. ring.
Qed.

Lemma big_sum_app :
  forall (f : Z -> K) l1 l2, big_sum (l1 ++ l2) f = (big_sum l1 f + big_sum l2 f)%R.
Proof.
  intros f l1 l2. induction l1 as [|k l1 IH]; cbn [app].
  - rewrite big_sum_nil. ring.
  - rewrite !big_sum_cons, IH. ring.
Qed.

Lemma big_sum_ext :
  forall (f g : Z -> K) ks,
    (forall k, In k ks -> f k = g k) -> big_sum ks f = big_sum ks g.
Proof.
  intros f g ks. induction ks as [|k ks IH]; intros H; [reflexivity|].
  rewrite !big_sum_cons, (H k (or_introl eq_refl)), IH; [reflexivity|].
  intros; apply H; now right.
Qed.

Lemma big_sum_zero :
  forall (f : Z -> K) ks, (forall k, In k ks -> f k = 0%R) -> big_sum ks f = 0%R.
Proof.
  intros f ks. induction ks as [|k ks IH]; intros H; [reflexivity|].
  rewrite big_sum_cons, (H k (or_introl eq_refl)), IH; [ring|].
  intros; apply H; now right.
Qed.

Lemma big_sum_scale_l :
  forall (c : K) (f : Z -> K) ks,
    big_sum ks (fun k => (c * f k)%R) = (c * big_sum ks f)%R.
Proof.
  intros c f ks. induction ks as [|k ks IH].
  - rewrite !big_sum_nil. ring.
  - rewrite !big_sum_cons, IH. ring.
Qed.

Lemma big_sum_scale_r :
  forall (c : K) (f : Z -> K) ks,
    big_sum ks (fun k => (f k * c)%R) = (big_sum ks f * c)%R.
Proof.
  intros c f ks. induction ks as [|k ks IH].
  - rewrite !big_sum_nil. ring.
  - rewrite !big_sum_cons, IH. ring.
Qed.

Lemma big_sum_add :
  forall (f g : Z -> K) ks,
    big_sum ks (fun k => (f k + g k)%R) = (big_sum ks f + big_sum ks g)%R.
Proof.
  intros f g ks. induction ks as [|k ks IH].
  - rewrite !big_sum_nil. ring.
  - rewrite !big_sum_cons, IH. ring.
Qed.

Lemma big_sum_map :
  forall (f : Z -> K) (h : Z -> Z) ks,
    big_sum (map h ks) f = big_sum ks (fun k => f (h k)).
Proof.
  intros f h ks. induction ks as [|k ks IH]; [reflexivity|].
  cbn [map]. now rewrite !big_sum_cons, IH.
Qed.

Lemma range_nil : forall lo hi, hi <= lo -> range lo hi = [].
Proof.
  intros lo hi H. unfold range. now replace (Z.to_nat (hi - lo)) with O by lia.
Qed.

Lemma range_cons : forall lo hi, lo < hi -> range lo hi = lo :: range (lo + 1) hi.
Proof.
  intros lo hi H. unfold range.
  replace (Z.to_nat (hi - lo)) with (S (Z.to_nat (hi - (lo + 1)))) by lia.
  cbn [seq map]. f_equal; [lia|].
  rewrite <- seq_shift, map_map. apply map_ext. intros i. lia.
Qed.

Lemma range_app :
  forall lo mid hi, lo <= mid <= hi -> range lo hi = range lo mid ++ range mid hi.
Proof.
  intros lo mid hi H.
  remember (Z.to_nat (mid - lo)) as n eqn:En.
  revert lo H En. induction n as [|n IH]; intros lo H En.
  - assert (mid = lo) as -> by lia. now rewrite (range_nil lo lo) by lia.
  - rewrite (range_cons lo hi), (range_cons lo mid) by lia.
    cbn [app]. f_equal. apply IH; lia.
Qed.

Lemma range_snoc : forall lo hi, lo <= hi -> range lo (hi + 1) = range lo hi ++ [hi].
Proof.
  intros lo hi H. rewrite (range_app lo hi (hi + 1)) by lia. f_equal.
  rewrite range_cons by lia. now rewrite range_nil by lia.
Qed.

Lemma range_shift :
  forall lo hi d, range (lo + d) (hi + d) = map (fun k => k + d) (range lo hi).
Proof.
  intros lo hi d. unfold range. rewrite map_map.
  replace (hi + d - (lo + d)) with (hi - lo) by lia.
  apply map_ext. intros i. lia.
Qed.

Lemma big_sum_shift :
  forall (f : Z -> K) lo hi d,
    big_sum (range (lo + d) (hi + d)) f = big_sum (range lo hi) (fun k => f (k + d)).
Proof. intros. now rewrite range_shift, big_sum_map. Qed.

Lemma big_sum_range_ext :
  forall (f g : Z -> K) lo hi,
    (forall k, lo <= k < hi -> f k = g k) ->
    big_sum (range lo hi) f = big_sum (range lo hi) g.
Proof. intros f g lo hi H. apply big_sum_ext. intros k Hk. apply H. now apply in_range. Qed.

Lemma big_sum_range_zero :
  forall (f : Z -> K) lo hi,
    (forall k, lo <= k < hi -> f k = 0%R) -> big_sum (range lo hi) f = 0%R.
Proof. intros f lo hi H. apply big_sum_zero. intros k Hk. apply H. now apply in_range. Qed.

Lemma big_sum_range_split :
  forall (f : Z -> K) lo mid hi, lo <= mid <= hi ->
    big_sum (range lo hi) f
    = (big_sum (range lo mid) f + big_sum (range mid hi) f)%R.
Proof. intros. now rewrite (range_app lo mid hi), big_sum_app. Qed.

Lemma big_sum_range_last :
  forall (f : Z -> K) lo hi, lo <= hi ->
    big_sum (range lo (hi + 1)) f = (big_sum (range lo hi) f + f hi)%R.
Proof.
  intros. rewrite range_snoc, big_sum_app, big_sum_cons, big_sum_nil by lia. ring.
Qed.

(** Induction on the upper end of a range. *)
Lemma upper_induction :
  forall (lo : Z) (P : Z -> Prop),
    P lo -> (forall hi, lo <= hi -> P hi -> P (hi + 1)) ->
    forall hi, lo <= hi -> P hi.
Proof.
  intros lo P H0 HS hi Hhi.
  replace hi with (lo + Z.of_nat (Z.to_nat (hi - lo))) by lia.
  induction (Z.to_nat (hi - lo)) as [|n IH].
  - now replace (lo + Z.of_nat 0) with lo by lia.
  - replace (lo + Z.of_nat (S n)) with (lo + Z.of_nat n + 1) by lia.
    apply HS; [lia|assumption].
Qed.

(** Exchanging the two sums over a triangle. *)
Lemma big_sum_exchange :
  forall (F : Z -> Z -> K) lo hi, lo <= hi ->
    big_sum (range lo hi) (fun j => big_sum (range lo (j + 1)) (fun i => F i j))
    = big_sum (range lo hi) (fun i => big_sum (range i hi) (fun j => F i j)).
Proof.
  intros F lo. apply upper_induction.
  - now rewrite !range_nil by lia.
  - intros hi Hhi IH.
    rewrite !big_sum_range_last by lia. rewrite IH.
    rewrite (big_sum_range_ext
               (fun i => big_sum (range i (hi + 1)) (fun j => F i j))
               (fun i => (big_sum (range i hi) (fun j => F i j) + F i hi)%R) lo hi).
    + rewrite big_sum_add.
      rewrite (range_nil hi hi) by lia. rewrite big_sum_nil. ring.
    + intros i Hi. now rewrite big_sum_range_last by lia.
Qed.

(** *** The inverse sequence *)

Section Inverse.

Variables (series : Z -> K) (v : Z) (ainv : K).

Local Abbreviation T := (LLS_inv_coefficient series v ainv).

Lemma inv_table_length : forall m, length (LLS_inv_table series v ainv m) = m.
Proof.
  induction m as [|m IH]; [reflexivity|].
  cbn [LLS_inv_table]. rewrite length_app, IH. cbn. lia.
Qed.

Lemma inv_table_stable :
  forall d m i, (i < m)%nat ->
    nth i (LLS_inv_table series v ainv (m + d)) 0%R
    = nth i (LLS_inv_table series v ainv m) 0%R.
Proof.
  induction d as [|d IH]; intros m i Hi.
  - now rewrite Nat.add_0_r.
  - rewrite Nat.add_succ_r. cbn [LLS_inv_table].
    rewrite app_nth1 by (rewrite inv_table_length; lia). now apply IH.
Qed.

Lemma inv_table_nth :
  forall m i, (i < m)%nat ->
    nth i (LLS_inv_table series v ainv m) 0%R = T (v + Z.of_nat i).
Proof.
  intros m i Hi. unfold LLS_inv_coefficient.
  assert ((v + Z.of_nat i <? v) = false) as -> by lia.
  replace (Z.to_nat (v + Z.of_nat i - v)) with i by lia.
  replace m with (S i + (m - S i))%nat by lia.
  apply inv_table_stable. lia.
Qed.

Lemma inv_coefficient_below : forall n, n < v -> T n = 0%R.
Proof.
  intros n H. unfold LLS_inv_coefficient.
  now assert ((n <? v) = true) as -> by lia.
Qed.

Lemma inv_coefficient_next :
  forall n, v <= n ->
    T n = LLS_inv_next series v ainv (LLS_inv_table series v ainv (Z.to_nat (n - v))).
Proof.
  intros n H. unfold LLS_inv_coefficient.
  assert ((n <? v) = false) as -> by lia.
  cbn [LLS_inv_table].
  rewrite app_nth2 by (rewrite inv_table_length; lia).
  rewrite inv_table_length, Nat.sub_diag. reflexivity.
Qed.

Lemma inv_coefficient_first : T v = ainv.
Proof.
  rewrite inv_coefficient_next by lia. unfold LLS_inv_next.
  rewrite inv_table_length.
  assert ((v + Z.of_nat (Z.to_nat (v - v)) =? v) = true) as E.
  { apply Z.eqb_eq. lia. }
  now rewrite E.
Qed.

Lemma inv_coefficient_above :
  forall n, v < n ->
    T n = ((- big_sum (range v n) (fun k => T k * series (n - v - k)%Z)) * ainv)%R.
Proof.
  intros n H. rewrite inv_coefficient_next by lia. unfold LLS_inv_next.
  rewrite inv_table_length.
  replace (v + Z.of_nat (Z.to_nat (n - v))) with n by lia.
  assert ((n =? v) = false) as -> by lia.
  f_equal. f_equal. apply big_sum_range_ext. intros k Hk.
  rewrite inv_table_nth by lia.
  now replace (v + Z.of_nat (Z.to_nat (k - v))) with k by lia.
Qed.

End Inverse.

(** The sequence of [LLS_inv] is the inverse for the convolution product. *)
Lemma inverse_convolution :
  forall (right : Z -> K) (rv : Z) (ainv : K),
    (ainv * right rv)%R = 1%R ->
    forall m, 0 <= m ->
      big_sum (range (- rv) (m - rv + 1))
        (fun k => (LLS_inv_coefficient right (- rv) ainv k * right (m - k)%Z)%R)
      = if m =? 0 then 1%R else 0%R.
Proof.
  intros right rv ainv Hinv m Hm.
  rewrite big_sum_range_last by lia.
  destruct (Z.eqb_spec m 0) as [->|Hne].
  - rewrite range_nil, big_sum_nil by lia.
    replace (0 - rv) with (- rv) by lia.
    rewrite inv_coefficient_first.
    replace (0 - - rv) with rv by lia. rewrite Hinv. ring.
  - rewrite (inv_coefficient_above right (- rv) ainv (m - rv)) by lia.
    rewrite (big_sum_range_ext
               (fun k => (LLS_inv_coefficient right (- rv) ainv k
                          * right (m - rv - - rv - k)%Z)%R)
               (fun k => (LLS_inv_coefficient right (- rv) ainv k * right (m - k)%Z)%R)).
    + replace (m - (m - rv)) with rv by lia.
      set (S := big_sum _ _).
      transitivity (S - S * (ainv * right rv))%R; [ring|]. rewrite Hinv. ring.
    + intros k _. f_equal. f_equal. lia.
Qed.

(** *** The quotient sequence *)

Section Quotient.

Variables (left right : Z -> K) (al lv rv : Z) (ainv : K).

Hypothesis left_below : forall k, k < lv -> left k = 0%R.
Hypothesis approx_le : al <= lv.
Hypothesis ainv_left : (ainv * right rv)%R = 1%R.

Local Abbreviation T := (LLS_inv_coefficient right (- rv) ainv).
Local Abbreviation q := (quotient_coefficient left right al rv ainv).

Lemma quotient_from_valuation :
  forall n, lv - rv <= n ->
    q n = big_sum (range lv (n + rv + 1)) (fun i => (left i * T (n - i)%Z)%R).
Proof.
  intros n Hn. unfold quotient_coefficient.
  replace (n - - rv + 1) with (n + rv + 1) by lia.
  rewrite (big_sum_range_split _ al lv (n + rv + 1)) by lia.
  rewrite big_sum_range_zero; [ring|].
  intros k Hk. rewrite left_below by lia. ring.
Qed.

Lemma quotient_below : forall n, n < lv - rv -> q n = 0%R.
Proof.
  intros n Hn. unfold quotient_coefficient.
  apply big_sum_range_zero. intros k Hk.
  rewrite left_below by lia. ring.
Qed.

Lemma quotient_first : q (lv - rv) = (left lv * ainv)%R.
Proof.
  rewrite quotient_from_valuation by lia.
  replace (lv - rv + rv + 1) with (lv + 1) by lia.
  rewrite big_sum_range_last, range_nil, big_sum_nil by lia.
  replace (lv - rv - lv) with (- rv) by lia.
  rewrite inv_coefficient_first. ring.
Qed.

(** The product of the quotient with [right] gives [left] back. *)
Lemma quotient_convolution :
  forall n, lv - rv <= n ->
    big_sum (range (lv - rv) (n + 1)) (fun k => (q k * right (n + rv - k)%Z)%R)
    = left (n + rv).
Proof.
  intros n Hn.
  set (N := n + rv).
  transitivity
    (big_sum (range lv (N + 1))
       (fun j => big_sum (range lv (j + 1))
                   (fun i => (left i * (T (j - rv - i)%Z * right (N + rv - j)%Z))%R))).
  { replace (lv - rv) with (lv + - rv) by lia.
    replace (n + 1) with (N + 1 + - rv) by (unfold N; lia).
    rewrite big_sum_shift. apply big_sum_range_ext. intros j Hj.
    rewrite quotient_from_valuation by lia.
    rewrite <- big_sum_scale_r.
    replace (j + - rv + rv + 1) with (j + 1) by lia.
    apply big_sum_range_ext. intros i Hi.
    replace (j + - rv - i) with (j - rv - i) by lia.
    replace (N - (j + - rv)) with (N + rv - j) by lia.
    ring. }
  rewrite big_sum_exchange by (unfold N; lia).
  transitivity
    (big_sum (range lv (N + 1))
       (fun i => (left i * (if N - i =? 0 then 1 else 0))%R)).
  { apply big_sum_range_ext. intros i Hi.
    rewrite big_sum_scale_l. f_equal.
    rewrite <- (inverse_convolution right rv ainv ainv_left (N - i)) by lia.
    replace i with (- rv + (rv + i)) at 1 by lia.
    replace (N + 1) with (N - i - rv + 1 + (rv + i)) by lia.
    rewrite big_sum_shift. apply big_sum_range_ext. intros k Hk.
    replace (k + (rv + i) - rv - i) with k by lia.
    replace (N + rv - (k + (rv + i))) with (N - i - k) by lia.
    reflexivity. }
  rewrite big_sum_range_last by (unfold N; lia).
  rewrite big_sum_range_zero.
  - replace (N - N) with 0 by lia. cbn. ring.
  - intros i Hi. assert ((N - i =? 0) = false) as -> by lia. ring.
Qed.

Lemma quotient_recurrence :
  forall n, lv - rv < n ->
    q n = ((left (n + rv)
            - big_sum (range (lv - rv) n) (fun k => (q k * right (n + rv - k)%Z)%R))
           * ainv)%R.
Proof.
  intros n Hn.
  assert (H := quotient_convolution n ltac:(lia)).
  rewrite big_sum_range_last in H by lia.
  replace (n + rv - n) with rv in H by lia.
  rewrite <- H.
  set (S := big_sum _ _).
  transitivity (q n * (ainv * right rv))%R; [rewrite ainv_left|]; ring.
Qed.

End Quotient.

(** *** The formulas of the nodes, on operands that answer with given
    sequences *)

Lemma fold_sub_acc :
  forall (f : Z -> K) (ks : list Z) (c : K),
    fold_left (fun c k => (c - f k)%R) ks c = (c - big_sum ks f)%R.
Proof.
  intros f ks. induction ks as [|k ks IH]; intros c; cbn [fold_left].
  - rewrite big_sum_nil. ring.
  - rewrite IH, big_sum_cons. ring.
Qed.

Lemma LLS_mul_get_coefficient_reads :
  forall (I : store K -> Prop) (rec : node_id -> Z -> M K K)
         (left right : node_id) (lf rf : Z -> K) (lv rv n : Z),
    (forall st, I st -> approx left st = Ok lv st /\ approx right st = Ok rv st) ->
    (forall k, lv <= k <= n - rv -> reads I rec left lf k) ->
    (forall k, lv <= k <= n - rv -> truthy (lf k) = true ->
               reads I rec right rf (n - k)) ->
    forall st, I st ->
    exists st',
      LLS_mul_get_coefficient rec left right n st
      = Ok (big_sum (range lv (n - rv + 1))
                    (fun k => (lf k * rf (n - k)%Z)%R)) st'
      /\ I st'.
Proof.
  intros I rec left right lf rf lv rv n Happrox Hl Hr st HI.
  destruct (Happrox st HI) as [El Er].
  unfold LLS_mul_get_coefficient, bind. rewrite El, Er.
  unfold big_sum.
  apply for_range_inv with (g := fun k c => (c + lf k * rf (n - k)%Z)%R);
    [|assumption].
  intros k c s Hin Hs. apply in_range in Hin.
  destruct (Hl k ltac:(lia) s Hs) as (s1 & E1 & Hs1).
  rewrite E1.
  destruct (truthy (lf k)) eqn:Et.
  - destruct (Hr k ltac:(lia) Et s1 Hs1) as (s2 & E2 & Hs2).
    exists s2. rewrite E2. split; [reflexivity|assumption].
  - exists s1. split; [|assumption].
    apply truthy_false in Et. rewrite Et. unfold ret. f_equal. ring.
Qed.


(** The formula of [LLS_div] reproduces any sequence that satisfies the
    recurrence of the division. *)
Lemma LLS_div_get_coefficient_reads :
  forall (I : store K -> Prop) (rec : node_id -> Z -> M K K)
         (self left right : node_id) (c lf rf : Z -> K) (lv rv : Z) (ainv : K) (n : Z),
    lv - rv <= n ->
    inv K (rf rv) = Some ainv ->
    division_recurrence lf rf lv rv ainv c ->
    (forall k, lv - rv <= k < n -> reads I rec self c k) ->
    (forall k, lv <= k -> reads I rec left lf k) ->
    (forall k, rv <= k -> reads I rec right rf k) ->
    forall st, I st ->
    exists st',
      LLS_div_get_coefficient rec self left right lv rv ainv n st
      = Ok (c n) st' /\ I st'.
Proof.
  intros I rec self left right c lf rf lv rv ainv n Hn Hinv (_ & Hfirst & Hrec)
         Hself Hleft Hright st HI.
  unfold LLS_div_get_coefficient.
  destruct (Z.eqb_spec n (lv - rv)) as [->|Hne].
  - destruct (Hleft lv ltac:(lia) st HI) as (s1 & E1 & H1).
    destruct (Hright rv ltac:(lia) s1 H1) as (s2 & E2 & H2).
    exists s2. unfold bind. rewrite E1, E2, Hinv, Hfirst.
    split; [reflexivity|assumption].
  - destruct (Hleft (n + rv) ltac:(lia) st HI) as (s1 & E1 & H1).
    destruct (for_range_inv I
                (fun k c => x <- rec self k ;; y <- rec right (n + rv - k) ;;
                            ret (c - x * y)%R)
                (fun k c' => (c' - c k * rf (n + rv - k)%Z)%R)
                (range (lv - rv) n) (lf (n + rv))) with (st := s1)
      as (s2 & E2 & H2); [|assumption|].
    + intros k c' s Hin Hs. apply in_range in Hin.
      destruct (Hself k Hin s Hs) as (t1 & F1 & G1).
      destruct (Hright (n + rv - k) ltac:(lia) t1 G1) as (t2 & F2 & G2).
      exists t2. unfold bind. rewrite F1, F2. split; [reflexivity|assumption].
    + exists s2. unfold bind in *. rewrite E1, E2. split; [|assumption].
      unfold ret. f_equal. rewrite (Hrec n) by lia.
      now rewrite fold_sub_acc.
Qed.

(** C8: let [left] have valuation [lv] (approximate valuation [al] for the
    code) and [right] valuation [rv] with [right[rv]] invertible.  The
    formula of the node that [_div_] builds, [LLS_mul(left, LLS_inv(right))],
    returns [quotient_coefficient]; that sequence vanishes below [lv - rv],
    starts there with the nonzero [left[lv]/right[rv]] and satisfies the
    recurrence of the division, so that the formula of [LLS_div] reproduces
    it coefficient by coefficient. *)
Theorem division_by_inverse_satisfies_recurrence :
  forall (left right : Z -> K) (al lv rv : Z) (ainv : K),
    (forall k, k < lv -> left k = 0%R) ->
    left lv <> 0%R ->
    al <= lv ->
    inv K (right rv) = Some ainv ->
    let q := quotient_coefficient left right al rv ainv in
    division_recurrence left right lv rv ainv q
    /\ q (lv - rv) <> 0%R
    /\ (forall (I : store K -> Prop) (rec : node_id -> Z -> M K K)
               (l ri : node_id) (n : Z),
          (forall st, I st -> approx l st = Ok al st /\ approx ri st = Ok (- rv) st) ->
          (forall k, reads I rec l left k) ->
          (forall k, reads I rec ri (LLS_inv_coefficient right (- rv) ainv) k) ->
          forall st, I st ->
          exists st', LLS_mul_get_coefficient rec l ri n st = Ok (q n) st' /\ I st')
    /\ (forall (I : store K -> Prop) (rec : node_id -> Z -> M K K)
               (self l r : node_id) (n : Z),
          lv - rv <= n ->
          (forall k, reads I rec self q k) ->
          (forall k, reads I rec l left k) ->
          (forall k, reads I rec r right k) ->
          forall st, I st ->
          exists st',
            LLS_div_get_coefficient rec self l r lv rv ainv n st = Ok (q n) st'
            /\ I st').
Proof.
  intros left right al lv rv ainv Hbelow Hlv Hal Hinv q.
  assert (Hunit : (ainv * right rv)%R = 1%R) by (apply (inv_left laws); assumption).
  assert (Hrec : division_recurrence left right lv rv ainv q).
  { split; [|split].
    - intros n Hn. now apply quotient_below with (lv := lv).
    - now apply quotient_first.
    - intros n Hn. now apply quotient_recurrence. }
  split; [exact Hrec|]. split; [|split].
  - unfold q. rewrite quotient_first by assumption. intros E.
    apply Hlv.
    transitivity (left lv * ainv * right rv)%R; [|rewrite E; ring].
    transitivity (left lv * (ainv * right rv))%R; [rewrite Hunit|]; ring.
  - intros I rec l ri n Happrox Hl Hri st HI.
    apply LLS_mul_get_coefficient_reads with (lv := al) (rv := - rv);
      auto.
  - intros I rec self l r n Hn Hself Hl Hr st HI.
    apply LLS_div_get_coefficient_reads with (c := q) (lf := left) (rf := right);
      auto.
Qed.

(** C3: when the operands answer with the sequences [lf] and [rf] (the
    right one being asked only where the left coefficient is nonzero), the
    coefficient formula of the product node returns the convolution sum over
    [k] from the left approximate valuation to [n] minus the right one; and
    [LLS_mul] gives the node the sum of the approximate valuations. *)
Theorem LLS_mul_convolution :
  forall (I : store K -> Prop) (rec : node_id -> Z -> M K K)
         (left right : node_id) (lf rf : Z -> K) (lv rv n : Z),
    (forall st, I st -> approx left st = Ok lv st /\ approx right st = Ok rv st) ->
    (forall k, lv <= k <= n - rv -> reads I rec left lf k) ->
    (forall k, lv <= k <= n - rv -> truthy (lf k) = true ->
               reads I rec right rf (n - k)) ->
    (forall st, I st ->
       exists st',
         LLS_mul_get_coefficient rec left right n st
         = Ok (big_sum (range lv (n - rv + 1))
                       (fun k => mul K (lf k) (rf (n - k)))) st'
         /\ I st')
    /\ (forall st (l r : node K),
          nth_error (nodes st) left = Some l ->
          nth_error (nodes st) right = Some r ->
          is_sparse l = is_sparse r ->
          exists nd,
            LLS_mul left right st = Ok nd st
            /\ n_kind nd = K_mul left right
            /\ approximate_valuation nd
               = approximate_valuation l + approximate_valuation r).
Proof.
  intros I rec left right lf rf lv rv n Happrox Hl Hr. split.
  - now apply LLS_mul_get_coefficient_reads.
  - intros st l r Hlk Hrk Hsp.
    unfold LLS_mul, bind, get_node. rewrite Hlk, Hrk, Hsp.
    rewrite Bool.eqb_reflx. cbn.
    eexists. split; [reflexivity|]. split; reflexivity.
Qed.

End WithLaws.

End Properties.

Lemma define_already_defined_witness :
  nth_error (nodes Examples.bound_store) 0%nat
  = Some (Node (K:=ZZ) (K_uninitialized (Some 1%nat)) false 0 (Dense [] 0 NotStarted))
  /\ define 0%nat 1%nat Examples.bound_store
     = Err ValueError_already_defined Examples.bound_store.
Proof.
  split; [reflexivity|].
  apply (@define_already_defined ZZ Examples.bound_store 0%nat 1%nat
           (Node (K:=ZZ) (K_uninitialized (Some 1%nat)) false 0 (Dense [] 0 NotStarted))).
  - reflexivity.
  - discriminate.
Defined.

Lemma zero_division_witness :
  inv ZZ (zero ZZ) = None
  /\ _div_ false 5 5 1%nat 0%nat Examples.zero_store
     = Err ZeroDivisionError Examples.zero_store
  /\ __invert__ false 5 5 0%nat Examples.zero_store
     = Err ZeroDivisionError Examples.zero_store.
Proof.
  split; [reflexivity|].
  apply (@zero_division ZZ false 5%nat 5%nat Examples.zero_store 1%nat 0%nat
           (LazyLaurentSeries_zero ZZ false)); reflexivity.
Defined.

Lemma ZZ_laws : CoeffRingLaws ZZ.
Proof.
  constructor.
  - exact Zth.
  - intros a b. apply Z.eqb_eq.
  - intros a b. cbn. unfold ZZ_ring.inverse.
    destruct (Z.eqb_spec a 1); [intros [= <-]; subst; reflexivity|].
    destruct (Z.eqb_spec a (-1)); [intros [= <-]; subst; reflexivity|].
    discriminate.
Qed.

(** C9: on the closed-form series [z], [map_coefficients] with
    [c -> c + 1] does not return a series: the branch for eventually
    geometric nodes raises [UnboundLocalError]. *)
Theorem map_coefficients_closed_form_raises :
  map_coefficients 0%nat (fun c : ZZ => c + 1) Examples.gen_store
  = Err UnboundLocalError Examples.gen_store.
Proof. reflexivity. Qed.

(** C7: in the sparse implementation, after the request [M[1]] on the
    series [M] with all coefficients zero, the cache holds only the zero
    coefficient at index 1, and [__bool__] answers [True]. *)
Theorem bool_sparse_true_without_nonzero_coefficient :
  getitem 2 0%nat 1 Examples.null_store = Ok (0 : ZZ) Examples.null_store_queried
  /\ (forall n fuel, exists st,
         getitem (S fuel) 0%nat n Examples.null_store_queried = Ok (0 : ZZ) st)
  /\ __bool__ 2 0%nat Examples.null_store_queried = Ok true Examples.null_store_queried.
Proof.
  split; [reflexivity|]. split; [|reflexivity].
  intros n fuel. cbn.
  unfold inexact_getitem, bind, get_node; cbn.
  destruct (n <? 0); [eexists; reflexivity|].
  match goal with
  | |- context [if ?b then Some 0 else None] => destruct b
  end; [eexists; reflexivity|].
  unfold bind; cbn. eexists; reflexivity.
Qed.

(** C6: [A = 2*M] and [B = 3*M] for [M = z + 2z^2 + 3z^3 + ...] are two
    [LLS_scalar] nodes over [M] with different scalars, and their
    coefficients differ from index 1 on.  Both approximate valuations are
    0, so the comparison inspects no coefficient; [__eq__] of the nodes
    compares the class and the operand only, and [A == B] answers [True],
    for every bound on the evaluation, instead of raising "undecidable". *)
Theorem richcmp_true_for_different_scalar_multiples :
  (A <- _rmul_ false 0%nat (2 : ZZ) ;; B <- _rmul_ false 0%nat (3 : ZZ) ;;
   ret (A, B)) Examples.M_store
  = Ok (1%nat, 2%nat) Examples.multiples_store
  /\ answer (coefficients 2 1%nat (range 0 4) Examples.multiples_store)
     = inr [0; 2; 4; 6]
  /\ answer (coefficients 2 2%nat (range 0 4) Examples.multiples_store)
     = inr [0; 3; 6; 9]
  /\ scan_differ 2 1%nat 2%nat (range 0 0) Examples.multiples_store
     = Ok false Examples.multiples_store
  /\ (forall fuel,
        _richcmp_ (2 + fuel) 1%nat 2%nat Examples.multiples_store
        = Ok true Examples.multiples_store).
Proof.
  split; [reflexivity|]. split; [reflexivity|]. split; [reflexivity|].
  split; [reflexivity|]. intros fuel. reflexivity.
Qed.

(** C4: with [f = g = 1 + z + z^2 + ...], where [f] is not a polynomial
    and [g] has valuation 0, [f(g)] raises nothing: no coefficient of [g]
    is inspected and the composition node is built. *)
Theorem call_accepts_valuation_zero :
  answer (valuation 2 2 1%nat Examples.ones_store) = inr (Fin 0)
  /\ __call__ 2 2 0%nat 1%nat Examples.ones_store
     = Ok 2%nat Examples.ones_store_composed
  /\ demands Examples.ones_store_composed = [].
Proof.
  split; [reflexivity|]. split; reflexivity.
Qed.

(** C2: before [f(g)] the coefficient of [g] at index 0 is 1; the call sets
    the approximate valuation of [g] to 1, above the index of that nonzero
    coefficient, and from then on the request [g[0]] answers 0. *)
Theorem call_breaks_valuation_bound :
  answer (getitem 2 1%nat 0 Examples.ones_store) = inr (1 : ZZ)
  /\ __call__ 2 2 0%nat 1%nat Examples.ones_store
     = Ok 2%nat Examples.ones_store_composed
  /\ option_map (@approximate_valuation ZZ)
       (nth_error (nodes Examples.ones_store_composed) 1%nat) = Some 1
  /\ answer (getitem 2 1%nat 0 Examples.ones_store_composed) = inr (0 : ZZ).
Proof.
  split; [reflexivity|]. split; [reflexivity|].
  split; reflexivity.
Qed.

(** The coefficients of the closed-form nodes of the example stores. *)
Lemma product_store_reads :
  forall (i : node_id) (p : lpoly ZZ) (c : ZZ) (d v : Z) (k : Z),
    nth_error (nodes Examples.product_store) i
    = Some (Node (K_eventually_geometric p c d) false v NoCache) ->
    reads (Examples.same_nodes Examples.product_store) (getitem 1) i
          (fun k => if k >=? d then c else lp_get p k) k.
Proof.
  intros i p c d v k Hi st Hst. unfold Examples.same_nodes in Hst.
  cbn. unfold bind, record_demand, get_node. cbn. rewrite Hst, Hi. cbn.
  destruct (k >=? d); (eexists; split; [reflexivity|reflexivity]).
Qed.

Lemma LLS_mul_convolution_witness :
  CoeffRingLaws ZZ
  /\ (forall st, Examples.same_nodes Examples.product_store st ->
        exists st',
          LLS_mul_get_coefficient (getitem 1) 0%nat 1%nat 2 st
          = Ok (big_sum (K:=ZZ) (range 0 (2 - 1 + 1))
                  (fun k => (if k >=? 2 then 0 else lp_get (LPoly ZZ 0 [1; 1]) k)
                            * (if 2 - k >=? 2 then 0 else lp_get (lp_gen ZZ) (2 - k))))
               st'
          /\ Examples.same_nodes Examples.product_store st')
  /\ big_sum (K:=ZZ) (range 0 (2 - 1 + 1))
       (fun k => (if k >=? 2 then 0 else lp_get (LPoly ZZ 0 [1; 1]) k)
                 * (if 2 - k >=? 2 then 0 else lp_get (lp_gen ZZ) (2 - k))) = 1.
Proof.
  split; [exact ZZ_laws|]. split; [|reflexivity].
  refine (proj1 (@LLS_mul_convolution ZZ ZZ_laws
            (Examples.same_nodes Examples.product_store) (getitem 1) 0%nat 1%nat
            (fun k => if k >=? 2 then 0 else lp_get (LPoly ZZ 0 [1; 1]) k)
            (fun k => if k >=? 2 then 0 else lp_get (lp_gen ZZ) k)
            0 1 2 _ _ _)).
  - intros st Hst. unfold Examples.same_nodes in Hst.
    unfold approx, bind, get_node. rewrite Hst. split; reflexivity.
  - intros k _. eapply product_store_reads. reflexivity.
  - intros k _ _. eapply product_store_reads. reflexivity.
Defined.


(** [M / N] on the example: the node built by [_div_] is
    [LLS_mul(M, LLS_inv(N))], and the evaluator returns on it the
    coefficients of [quotient_coefficient], z + z^2 + z^3 + ... *)
Example div_example :
  answer ((P <- _div_ false 3 3 0%nat 1%nat ;; coefficients 4 P (range (-2) 8))
            Examples.quotient_store)
  = inr (map (quotient_coefficient Examples.M_coefficients Examples.N_coefficients
                0 0 1)
             (range (-2) 8))
  /\ map (quotient_coefficient Examples.M_coefficients Examples.N_coefficients 0 0 1)
         (range (-2) 8)
     = [0; 0; 0; 1; 1; 1; 1; 1; 1; 1].
Proof. split; reflexivity. Qed.

Lemma division_by_inverse_satisfies_recurrence_witness :
  let q := quotient_coefficient Examples.M_coefficients Examples.N_coefficients 0 0 1 in
  division_recurrence Examples.M_coefficients Examples.N_coefficients 1 0 1 q
  /\ q (1 - 0) <> 0.
Proof.
  intros q.
  destruct (@division_by_inverse_satisfies_recurrence ZZ ZZ_laws
              Examples.M_coefficients Examples.N_coefficients 0 1 0 1)
    as (H1 & H2 & _).
  - intros k Hk. unfold Examples.M_coefficients.
    destruct (Z.ltb_spec k 0); [reflexivity|]. cbn. lia.
  - discriminate.
  - lia.
  - reflexivity.
  - split; assumption.
Defined.

(** ** The Catalan series, dense implementation *)

Section CatalanDense.

Import Catalan.

Lemma below_weaken :
  forall n m new, n <= m -> Forall (below n) new -> Forall (below m) new.
Proof.
  intros n m new H. apply Forall_impl. intros d Hd Hfst.
  specialize (Hd Hfst). lia.
Qed.

(** The requests on [C] while it computes its coefficient of index [a]
    are answered from its cache, whatever the state of the generators. *)
Lemma read_C :
  forall (f : nat) (cs es ps qs : list Z) (iC iE iP iQ : gen_state)
         (dem : list (node_id * Z)) (k : Z),
    0 <= k < Z.of_nat (length cs) ->
    getitem (S f) 0%nat k (state cs es ps qs iC iE iP iQ dem)
    = Ok (nth (Z.to_nat k) cs 0 : ZZ)
         (state cs es ps qs iC iE iP iQ ((0%nat, k) :: dem)).
Proof.
  intros f cs es ps qs iC iE iP iQ dem k Hk.
  rewrite (getitem_dense_hit ZZ f 0%nat k (state cs es ps qs iC iE iP iQ dem)
             _ cs 0 iC eq_refl eq_refl eq_refl eq_refl)
    by (cbn; lia).
  now replace (k - 0) with k by lia.
Qed.

Lemma read_z :
  forall (f : nat) (cs es ps qs : list Z) (iC iE iP iQ : gen_state)
         (dem : list (node_id * Z)) (k : Z),
    getitem (S f) 1%nat k (state cs es ps qs iC iE iP iQ dem)
    = Ok (if k >=? 2 then 0 else lp_get (lp_gen ZZ) k : ZZ)
         (state cs es ps qs iC iE iP iQ ((1%nat, k) :: dem)).
Proof.
  intros. now rewrite (getitem_geometric ZZ f 1%nat k
                         (state cs es ps qs iC iE iP iQ dem) _ (lp_gen ZZ) 0 2
                         eq_refl eq_refl).
Qed.

Lemma read_one :
  forall (f : nat) (cs es ps qs : list Z) (iC iE iP iQ : gen_state)
         (dem : list (node_id * Z)) (k : Z),
    getitem (S f) 2%nat k (state cs es ps qs iC iE iP iQ dem)
    = Ok (if k >=? 1 then 0 else lp_get (lp_one ZZ) k : ZZ)
         (state cs es ps qs iC iE iP iQ ((2%nat, k) :: dem)).
Proof.
  intros. now rewrite (getitem_geometric ZZ f 2%nat k
                         (state cs es ps qs iC iE iP iQ dem) _ (lp_one ZZ) 0 1
                         eq_refl eq_refl).
Qed.

Lemma read_shift_below :
  forall (f : nat) (cs es ps qs : list Z) (iC iE iP iQ : gen_state)
         (dem : list (node_id * Z)) (k : Z),
    k < 1 ->
    getitem (S f) 4%nat k (state cs es ps qs iC iE iP iQ dem)
    = Ok (0 : ZZ) (state cs es ps qs iC iE iP iQ ((4%nat, k) :: dem)).
Proof.
  intros. now rewrite (getitem_below_valuation ZZ f 4%nat k
                         (state cs es ps qs iC iE iP iQ dem) _ eq_refl eq_refl).
Qed.

(** [C^2] produces its coefficient of index [a] from the first [a + 1]
    coefficients of [C]. *)
Lemma step_square :
  forall (f a : nat) (cs es ps qs : list Z) (iC iE iP : gen_state)
         (dem : list (node_id * Z)),
    length cs = S a -> length qs = a ->
    exists (q : Z) (new : list (node_id * Z)),
      getitem (S (S f)) 3%nat (Z.of_nat a)
        (state cs es ps qs iC iE iP (resting 0 a) dem)
      = Ok (q : ZZ)
           (state cs es ps (qs ++ [q]) iC iE iP (Suspended (Z.of_nat a + 1))
                  (new ++ dem))
      /\ Forall (below (Z.of_nat (S a))) new.
Proof.
  intros f a cs es ps qs iC iE iP dem Hcs Hqs.
  set (I := fun st : store ZZ =>
              exists new,
                st = state cs es ps qs iC iE iP Running
                       (new ++ (3%nat, Z.of_nat a) :: dem)
                /\ Forall (below (Z.of_nat (S a))) new).
  assert (Hread : forall k, 0 <= k <= Z.of_nat a ->
                    reads I (getitem (S f)) 0%nat
                          (fun k => nth (Z.to_nat k) cs 0 : ZZ) k).
  { intros k Hk st (new & -> & Hnew).
    eexists. split; [apply read_C; lia|].
    exists ((0%nat, k) :: new). split; [reflexivity|].
    constructor; [intros _; cbn; lia|assumption]. }
  destruct (LLS_mul_get_coefficient_reads ZZ ZZ_laws I (getitem (S f)) 0%nat 0%nat
              (fun k => nth (Z.to_nat k) cs 0 : ZZ)
              (fun k => nth (Z.to_nat k) cs 0 : ZZ) 0 0 (Z.of_nat a))
    with (st := state cs es ps qs iC iE iP Running ((3%nat, Z.of_nat a) :: dem))
    as (st2 & E & (new & -> & Hnew)).
  - intros st (new & -> & _). split; reflexivity.
  - intros k Hk. apply Hread. lia.
  - intros k Hk _. apply Hread. lia.
  - exists []. split; [reflexivity|constructor].
  - eexists. exists (new ++ [(3%nat, Z.of_nat a)]). split.
    + erewrite (getitem_dense_next ZZ (S f) 3%nat (Z.of_nat a)
                  (state cs es ps qs iC iE iP (resting 0 a) dem) _ _ _ qs 0
                  (resting 0 a));
        [ | reflexivity | reflexivity | reflexivity | reflexivity
          | | | | exact E | reflexivity | reflexivity ].
      * cbn. rewrite <- app_assoc. reflexivity.
      * cbn. lia.
      * cbn. lia.
      * unfold resting_at. cbn. destruct a; cbn; lia.
    + apply Forall_app. split; [assumption|].
      constructor; [intros H; discriminate H|constructor].
Qed.

Lemma fold_left_const :
  forall (A B : Type) (ks : list B) (c : A), fold_left (fun c _ => c) ks c = c.
Proof. intros A B ks. induction ks as [|k ks IH]; intros c; [reflexivity|apply IH]. Qed.

(** [z*C^2] produces its coefficient of index [a + 1]: only [z[1]] is
    nonzero, so a single coefficient of [C^2] is requested. *)
Lemma step_shift :
  forall (f a : nat) (cs es ps qs : list Z) (iC iE : gen_state)
         (dem : list (node_id * Z)),
    length cs = S a -> length ps = a -> length qs = a ->
    exists (p q : Z) (new : list (node_id * Z)),
      getitem (S (S (S f))) 4%nat (Z.of_nat a + 1)
        (state cs es ps qs iC iE (resting 1 a) (resting 0 a) dem)
      = Ok (p : ZZ)
           (state cs es (ps ++ [p]) (qs ++ [q]) iC iE
                  (Suspended (Z.of_nat a + 1 + 1)) (Suspended (Z.of_nat a + 1))
                  (new ++ dem))
      /\ Forall (below (Z.of_nat (S a))) new.
Proof.
  intros f a cs es ps qs iC iE dem Hcs Hps Hqs.
  destruct (step_square f a cs es ps qs iC iE Running
              ((1%nat, 1) :: (4%nat, Z.of_nat a + 1) :: dem) Hcs Hqs)
    as (q & new & Eq & Hnew).
  set (I := fun st : store ZZ =>
              exists more,
                st = state cs es ps (qs ++ [q]) iC iE Running
                       (Suspended (Z.of_nat a + 1))
                       (more ++ new ++ (1%nat, 1) :: (4%nat, Z.of_nat a + 1) :: dem)
                /\ Forall (below (Z.of_nat (S a))) more).
  assert (Hcoef :
            exists more,
              get_coefficient (getitem (S (S f))) 4%nat (Z.of_nat a + 1)
                (state cs es ps qs iC iE Running (resting 0 a)
                       ((4%nat, Z.of_nat a + 1) :: dem))
              = Ok (0 + 1 * q : ZZ)
                   (state cs es ps (qs ++ [q]) iC iE Running
                          (Suspended (Z.of_nat a + 1))
                          (more ++ new ++ (1%nat, 1) :: (4%nat, Z.of_nat a + 1) :: dem))
              /\ Forall (below (Z.of_nat (S a))) more).
  { unfold get_coefficient, LLS_mul_get_coefficient, approx.
    cbn -[getitem for_range range Z.add Z.mul Z.sub Z.of_nat below].
    replace (Z.of_nat a + 1 - 0 + 1) with (Z.of_nat a + 2) by lia.
    rewrite (range_cons 1 (Z.of_nat a + 2)) by lia.
    cbn [for_range]. unfold bind at 1 2.
    rewrite read_z.
    cbn -[getitem for_range range Z.add Z.mul Z.sub Z.of_nat below].
    change (Z.to_nat (1 - 1)) with 0%nat. cbv beta iota.
    change (truthy (1 : ZZ)) with true. cbv iota.
    replace (Z.of_nat a + 1 - 1) with (Z.of_nat a) by lia.
    unfold bind at 1. rewrite Eq. unfold ret at 1.
    match goal with
    | |- context [for_range ?ks0 ?body0 ?c0 ?s0] =>
      assert (Hloop : (forall (k : Z) (c : ZZ) (st : store ZZ), In k ks0 -> I st ->
                         exists st', body0 k c st = Ok (K:=ZZ) c st' /\ I st')
                      -> I s0 -> exists st', for_range (K:=ZZ) ks0 body0 c0 s0
                                  = Ok (fold_left (fun c _ => c) ks0 c0) st' /\ I st')
        by (intros Hb Hs; exact (for_range_inv ZZ I body0 (fun _ c => c) ks0 c0 Hb s0 Hs));
      destruct Hloop as (st' & E & (more & -> & Hmore))
    end.
    - intros k c st Hin (more & -> & Hmore). apply in_range in Hin.
      unfold bind. rewrite read_z.
      assert ((k >=? 2) = true) as -> by lia.
      change (truthy (0 : ZZ)) with false. cbv iota.
      eexists. split; [reflexivity|].
      exists ((1%nat, k) :: more). split; [reflexivity|].
      constructor; [intros H; discriminate H|assumption].
    - exists []. split; [reflexivity|constructor].
    - exists more. rewrite E, fold_left_const. split; [reflexivity|assumption]. }
  destruct Hcoef as (more & Ecoef & Hmore).
  exists q, q, (more ++ new ++ [(1%nat, 1); (4%nat, Z.of_nat a + 1)]). split.
  - erewrite (getitem_dense_next ZZ (S (S f)) 4%nat (Z.of_nat a + 1)
                (state cs es ps qs iC iE (resting 1 a) (resting 0 a) dem) _ _ _ ps 1
                (resting 1 a));
      [ | reflexivity | reflexivity | reflexivity | reflexivity
        | | | | exact Ecoef | reflexivity | reflexivity ].
    + cbn -[Z.add Z.mul Z.of_nat].
      replace (0 + 1 * q) with q by lia.
      rewrite <- !app_assoc. reflexivity.
    + cbn. lia.
    + cbn. lia.
    + unfold resting_at, resting. cbn [n_cache]. destruct a; [reflexivity|lia].
  - apply Forall_app. split; [assumption|].
    apply Forall_app. split; [assumption|].
    constructor; [intros H; discriminate H|].
    constructor; [intros H; discriminate H|constructor].
Qed.

Lemma resting_succ :
  forall (start : Z) (a : nat), resting start (S a) = Suspended (start + Z.of_nat a + 1).
Proof. intros. unfold resting. f_equal. lia. Qed.

(** [1 + z*C^2] produces its coefficient of index [a] once [C] holds its
    first [a] coefficients. *)
Lemma step_sum :
  forall (f a : nat) (cs es ps qs : list Z) (iC : gen_state)
         (dem : list (node_id * Z)),
    length cs = a -> length es = a ->
    length ps = (a - 1)%nat -> length qs = (a - 1)%nat ->
    exists (v : Z) (ps' qs' : list Z) (new : list (node_id * Z)),
      getitem (S (S (S (S f)))) 5%nat (Z.of_nat a)
        (state cs es ps qs iC (resting 0 a) (resting 1 (a - 1)) (resting 0 (a - 1)) dem)
      = Ok (v : ZZ)
           (state cs (es ++ [v]) ps' qs' iC (Suspended (Z.of_nat a + 1))
                  (resting 1 a) (resting 0 a) (new ++ dem))
      /\ length ps' = a /\ length qs' = a
      /\ Forall (below (Z.of_nat a)) new.
Proof.
  intros f a cs es ps qs iC dem Hcs Hes Hps Hqs.
  assert (Hcoef :
            exists (v : Z) (ps' qs' : list Z) (new : list (node_id * Z)),
              get_coefficient (getitem (S (S (S f)))) 5%nat (Z.of_nat a)
                (state cs es ps qs iC Running (resting 1 (a - 1)) (resting 0 (a - 1))
                       ((5%nat, Z.of_nat a) :: dem))
              = Ok (v : ZZ)
                   (state cs es ps' qs' iC Running (resting 1 a) (resting 0 a)
                          (new ++ (5%nat, Z.of_nat a) :: dem))
              /\ length ps' = a /\ length qs' = a
              /\ Forall (below (Z.of_nat a)) new).
  { unfold get_coefficient.
    cbn -[getitem Z.add Z.mul Z.sub Z.of_nat below resting].
    unfold bind at 1. rewrite read_one.
    destruct a as [|a].
    - cbn [Nat.sub] in *.
      unfold bind.
      rewrite read_shift_below by (cbn; lia).
      exists (1 + 0), ps, qs, [(4%nat, 0); (2%nat, 0)].
      split; [reflexivity|]. split; [assumption|]. split; [assumption|].
      constructor; [intros H; discriminate H|].
      constructor; [intros H; discriminate H|constructor].
    - replace (S a - 1)%nat with a in * by lia.
      rewrite Nat2Z.inj_succ, <- Z.add_1_r.
      destruct (step_shift f a cs es ps qs iC Running
                  ((2%nat, Z.of_nat a + 1) :: (5%nat, Z.of_nat a + 1) :: dem)
                  Hcs Hps Hqs) as (p & q & new & E & Hnew).
      unfold bind. rewrite E.
      exists ((if Z.of_nat a + 1 >=? 1 then 0 else lp_get (lp_one ZZ) (Z.of_nat a + 1)) + p),
        (ps ++ [p]), (qs ++ [q]), (new ++ [(2%nat, Z.of_nat a + 1)]).
      split; [|split; [|split]].
      + unfold ret. rewrite !resting_succ, <- app_assoc.
        replace (1 + Z.of_nat a + 1) with (Z.of_nat a + 1 + 1) by lia.
        replace (0 + Z.of_nat a + 1) with (Z.of_nat a + 1) by lia.
        reflexivity.
      + rewrite length_app. cbn. lia.
      + rewrite length_app. cbn. lia.
      + apply Forall_app. split.
        * rewrite Nat2Z.inj_succ, <- Z.add_1_r in Hnew. exact Hnew.
        * constructor; [intros H; discriminate H|constructor]. }
  destruct Hcoef as (v & ps' & qs' & new & Ecoef & Hps' & Hqs' & Hnew).
  exists v, ps', qs', (new ++ [(5%nat, Z.of_nat a)]). split; [|split; [|split]].
  - erewrite (getitem_dense_next ZZ (S (S (S f))) 5%nat (Z.of_nat a)
                (state cs es ps qs iC (resting 0 a) (resting 1 (a - 1))
                       (resting 0 (a - 1)) dem) _ _ _ es 0 (resting 0 a));
      [ | reflexivity | reflexivity | reflexivity | reflexivity
        | | | | exact Ecoef | reflexivity | reflexivity ].
    + cbn -[Z.add Z.mul Z.of_nat resting]. rewrite <- app_assoc. reflexivity.
    + cbn. lia.
    + cbn. lia.
    + unfold resting_at, resting. cbn [n_cache]. destruct a; [reflexivity|lia].
  - assumption.
  - assumption.
  - apply Forall_app. split; [assumption|].
    constructor; [intros H; discriminate H|constructor].
Qed.

(** The generator of [C] produces the coefficient of index [a], which is
    appended to the cache. *)
Lemma step_C :
  forall (f a : nat) (cs es ps qs : list Z) (dem : list (node_id * Z)),
    length cs = a -> length es = a ->
    length ps = (a - 1)%nat -> length qs = (a - 1)%nat ->
    exists (v : Z) (ps' qs' : list Z) (new : list (node_id * Z)),
      (c <- next_iter (getitem (S (S (S (S f))))) 0%nat ;;
       update_node 0%nat (cache_append c)) (at_rest a cs es ps qs dem)
      = Ok tt (at_rest (S a) (cs ++ [v]) (es ++ [v]) ps' qs' (new ++ dem))
      /\ length ps' = a /\ length qs' = a
      /\ Forall (below (Z.of_nat a)) new.
Proof.
  intros f a cs es ps qs dem Hcs Hes Hps Hqs.
  destruct (step_sum f a cs es ps qs Running dem Hcs Hes Hps Hqs)
    as (v & ps' & qs' & new & E & Hps' & Hqs' & Hnew).
  exists v, ps', qs', new. split; [|split; [|split]]; try assumption.
  unfold bind.
  rewrite (next_iter_resting ZZ (getitem (S (S (S (S f))))) 0%nat (Z.of_nat a)
             (at_rest a cs es ps qs dem)
             (state cs (es ++ [v]) ps' qs' Running (Suspended (Z.of_nat a + 1))
                    (resting 1 a) (resting 0 a) (new ++ dem))
             _ v eq_refl).
  - unfold update_node, at_rest.
    replace (S a - 1)%nat with a by lia.
    rewrite !resting_succ.
    replace (0 + Z.of_nat a + 1) with (Z.of_nat a + 1) by lia. reflexivity.
  - unfold resting_at, resting. cbn [n_cache at_rest state nodes nth_error].
    destruct a; [reflexivity|lia].
  - exact E.
Qed.

(** [self._cache.extend(...)] on [C]: [count] more coefficients. *)
Lemma extend_C :
  forall (f count a : nat) (cs es ps qs : list Z) (dem : list (node_id * Z)),
    length cs = a -> length es = a ->
    length ps = (a - 1)%nat -> length qs = (a - 1)%nat ->
    exists (cs' es' ps' qs' : list Z) (new : list (node_id * Z)),
      cache_extend (getitem (S (S (S (S f))))) count 0%nat (at_rest a cs es ps qs dem)
      = Ok tt (at_rest (a + count) cs' es' ps' qs' (new ++ dem))
      /\ length cs' = (a + count)%nat /\ length es' = (a + count)%nat
      /\ length ps' = (a + count - 1)%nat /\ length qs' = (a + count - 1)%nat
      /\ Forall (below (Z.of_nat (a + count) - 1)) new.
Proof.
  intros f count. induction count as [|count IH];
    intros a cs es ps qs dem Hcs Hes Hps Hqs.
  - exists cs, es, ps, qs, []. rewrite Nat.add_0_r.
    repeat split; try assumption. constructor.
  - destruct (step_C f a cs es ps qs dem Hcs Hes Hps Hqs)
      as (v & ps1 & qs1 & new1 & E1 & Hps1 & Hqs1 & Hnew1).
    destruct (IH (S a) (cs ++ [v]) (es ++ [v]) ps1 qs1 (new1 ++ dem))
      as (cs' & es' & ps' & qs' & new2 & E2 & Hcs' & Hes' & Hps' & Hqs' & Hnew2).
    + rewrite length_app. cbn. lia.
    + rewrite length_app. cbn. lia.
    + lia.
    + lia.
    + exists cs', es', ps', qs', (new2 ++ new1).
      replace (a + S count)%nat with (S a + count)%nat by lia.
      split; [|repeat split; try assumption].
      * cbn [cache_extend].
        unfold bind in E1 |- *. unfold in_genexp.
        destruct (next_iter (getitem (S (S (S (S f))))) 0%nat (at_rest a cs es ps qs dem))
          as [c st1|e st1]; [|discriminate E1].
        rewrite E1, E2, <- app_assoc. reflexivity.
      * apply Forall_app. split; [assumption|].
        apply below_weaken with (n := Z.of_nat a); [lia|assumption].
Qed.

(** Every request on [C], from a store at rest, returns with fuel 5 (or
    more), leaves the store at rest, and requests from [C] only
    coefficients of smaller index. *)
Lemma getitem_C :
  forall (f a : nat) (cs es ps qs : list Z) (dem : list (node_id * Z)) (n : Z),
    length cs = a -> length es = a ->
    length ps = (a - 1)%nat -> length qs = (a - 1)%nat ->
    exists (v : Z) (cs' es' ps' qs' : list Z) (new : list (node_id * Z)),
      let a' := Nat.max a (Z.to_nat (n + 1)) in
      getitem (S (S (S (S (S f))))) 0%nat n (at_rest a cs es ps qs dem)
      = Ok (v : ZZ) (at_rest a' cs' es' ps' qs' (new ++ (0%nat, n) :: dem))
      /\ length cs' = a' /\ length es' = a'
      /\ length ps' = (a' - 1)%nat /\ length qs' = (a' - 1)%nat
      /\ Forall (below n) new.
Proof.
  intros f a cs es ps qs dem n Hcs Hes Hps Hqs.
  destruct (Z.ltb_spec n (Z.of_nat a)) as [Hlt|Hge].
  - (* answered by the guard or by the cache *)
    exists (if n <? 0 then 0 else nth (Z.to_nat n) cs 0), cs, es, ps, qs, [].
    replace (Nat.max a (Z.to_nat (n + 1))) with a by lia.
    cbv zeta. split; [|repeat split; try assumption; constructor].
    destruct (Z.ltb_spec n 0) as [Hneg|Hpos].
    + now rewrite (getitem_below_valuation ZZ (S (S (S (S f)))) 0%nat n
                     (at_rest a cs es ps qs dem) _ eq_refl eq_refl Hneg).
    + unfold at_rest. now rewrite read_C by lia.
  - (* the cache is extended up to [n] *)
    destruct (extend_C f (Z.to_nat (n + 1 - Z.of_nat a)) a cs es ps qs
                ((0%nat, n) :: dem) Hcs Hes Hps Hqs)
      as (cs' & es' & ps' & qs' & new & E & Hcs' & Hes' & Hps' & Hqs' & Hnew).
    replace (a + Z.to_nat (n + 1 - Z.of_nat a))%nat
      with (Nat.max a (Z.to_nat (n + 1))) in * by lia.
    exists (nth (Z.to_nat n) cs' 0), cs', es', ps', qs', new.
    cbv zeta. split; [|repeat split; try assumption].
    + rewrite (getitem_inexact ZZ (S (S (S (S f)))) 0%nat n
                 (at_rest a cs es ps qs dem) _ eq_refl eq_refl).
      unfold inexact_getitem. unfold bind at 1, get_node.
      cbn [requested at_rest state nodes nth_error approximate_valuation is_sparse
           n_cache].
      assert ((n <? 0) = false) as -> by lia.
      change (carrier ZZ) with Z.
      match goal with
      | |- context [if ?b then _ else _] => assert (b = true) as -> by lia
      end.
      match goal with
      | |- context [cache_extend _ ?c _] =>
        replace c with (Z.to_nat (n + 1 - Z.of_nat a)) by lia
      end.
      unfold bind, requested.
      change (Store (nodes (at_rest a cs es ps qs dem))
                    ((0%nat, n) :: demands (at_rest a cs es ps qs dem)))
        with (at_rest a cs es ps qs ((0%nat, n) :: dem)).
      rewrite E. unfold get_node.
      cbn [at_rest state nodes nth_error n_cache].
      unfold py_get. rewrite (py_index_nth Z cs' (n - 0) 0) by lia.
      now replace (n - 0) with n by lia.
    + apply below_weaken with (n := Z.of_nat (Nat.max a (Z.to_nat (n + 1))) - 1);
        [lia|assumption].
Qed.

End CatalanDense.

(** ** The Catalan series, sparse implementation *)

Section CatalanSparse.

Import Catalan.

Lemma within_requested :
  forall n base st i k,
    within n base st -> (i = 0%nat -> k < n) -> within n base (requested i k st).
Proof.
  intros n base st i k (dC & dE & dP & dQ & new & -> & Hnew) Hk.
  exists dC, dE, dP, dQ, ((i, k) :: new). split; [reflexivity|].
  constructor; [exact Hk|assumption].
Qed.

Lemma sparse_read_closed_form :
  forall (F : nat) (i : node_id) (k n : Z),
    (i = 1 \/ i = 2)%nat -> returns (S F) i k n.
Proof.
  intros F i k n Hi base st W.
  assert (W' := within_requested n base st i k W
                  ltac:(intros ->; destruct Hi; discriminate)).
  destruct W as (dC & dE & dP & dQ & new & -> & Hnew).
  destruct Hi as [-> | ->].
  - rewrite (getitem_geometric ZZ F 1%nat k (sparse_state dC dE dP dQ (new ++ base)) _
               (lp_gen ZZ) 0 2 eq_refl eq_refl).
    eexists. eexists. split; [reflexivity|exact W'].
  - rewrite (getitem_geometric ZZ F 2%nat k (sparse_state dC dE dP dQ (new ++ base)) _
               (lp_one ZZ) 0 1 eq_refl eq_refl).
    eexists. eexists. split; [reflexivity|exact W'].
Qed.

(** A request on one of the four lazy nodes returns as soon as the formula
    of the node does. *)
Lemma sparse_request :
  forall (F : nat) (i : node_id) (k n : Z),
    (i = 0 \/ i = 3 \/ i = 4 \/ i = 5)%nat ->
    (i = 0%nat -> k < n) ->
    (forall base st, within n base st ->
       exists (v : Z) (st' : store ZZ),
         get_coefficient (getitem F) i k st = Ok (v : ZZ) st' /\ within n base st') ->
    returns (S F) i k n.
Proof.
  intros F i k n Hi Hk Hcoef base st W.
  assert (W' := within_requested n base st i k W Hk).
  destruct (Hcoef base _ W') as (v & st2 & E & W2).
  destruct W as (dC & dE & dP & dQ & new & -> & Hnew).
  destruct W2 as (dC2 & dE2 & dP2 & dQ2 & new2 & -> & Hnew2).
  destruct Hi as [-> | [-> | [-> | ->]]].
  - rewrite (getitem_inexact ZZ F 0%nat k (sparse_state dC dE dP dQ (new ++ base)) _
               eq_refl eq_refl).
    rewrite (inexact_getitem_sparse ZZ (getitem F) 0%nat k
               (requested 0%nat k (sparse_state dC dE dP dQ (new ++ base))) _
               (dC : list (Z * ZZ))
               eq_refl eq_refl eq_refl).
    cbn [approximate_valuation].
    destruct (k <? 0); [eexists; eexists; split; [reflexivity|exact W']|].
    destruct (dict_get (K:=ZZ) dC k); [eexists; eexists; split; [reflexivity|exact W']|].
    rewrite E. eexists. eexists. split; [reflexivity|].
    eexists _, _, _, _, new2. split; [reflexivity|assumption].
  - rewrite (getitem_inexact ZZ F 3%nat k (sparse_state dC dE dP dQ (new ++ base)) _
               eq_refl eq_refl).
    rewrite (inexact_getitem_sparse ZZ (getitem F) 3%nat k
               (requested 3%nat k (sparse_state dC dE dP dQ (new ++ base))) _
               (dQ : list (Z * ZZ))
               eq_refl eq_refl eq_refl).
    cbn [approximate_valuation].
    destruct (k <? 0); [eexists; eexists; split; [reflexivity|exact W']|].
    destruct (dict_get (K:=ZZ) dQ k); [eexists; eexists; split; [reflexivity|exact W']|].
    rewrite E. eexists. eexists. split; [reflexivity|].
    eexists _, _, _, _, new2. split; [reflexivity|assumption].
  - rewrite (getitem_inexact ZZ F 4%nat k (sparse_state dC dE dP dQ (new ++ base)) _
               eq_refl eq_refl).
    rewrite (inexact_getitem_sparse ZZ (getitem F) 4%nat k
               (requested 4%nat k (sparse_state dC dE dP dQ (new ++ base))) _
               (dP : list (Z * ZZ))
               eq_refl eq_refl eq_refl).
    cbn [approximate_valuation].
    destruct (k <? 1); [eexists; eexists; split; [reflexivity|exact W']|].
    destruct (dict_get (K:=ZZ) dP k); [eexists; eexists; split; [reflexivity|exact W']|].
    rewrite E. eexists. eexists. split; [reflexivity|].
    eexists _, _, _, _, new2. split; [reflexivity|assumption].
  - rewrite (getitem_inexact ZZ F 5%nat k (sparse_state dC dE dP dQ (new ++ base)) _
               eq_refl eq_refl).
    rewrite (inexact_getitem_sparse ZZ (getitem F) 5%nat k
               (requested 5%nat k (sparse_state dC dE dP dQ (new ++ base))) _
               (dE : list (Z * ZZ))
               eq_refl eq_refl eq_refl).
    cbn [approximate_valuation].
    destruct (k <? 0); [eexists; eexists; split; [reflexivity|exact W']|].
    destruct (dict_get (K:=ZZ) dE k); [eexists; eexists; split; [reflexivity|exact W']|].
    rewrite E. eexists. eexists. split; [reflexivity|].
    eexists _, _, _, _, new2. split; [reflexivity|assumption].
Qed.

Lemma within_approx :
  forall n base st, within n base st ->
    approx 0%nat st = Ok 0 st /\ approx 1%nat st = Ok 1 st
    /\ approx 3%nat st = Ok 0 st.
Proof.
  intros n base st (dC & dE & dP & dQ & new & -> & _). repeat split.
Qed.

(** [C^2[m]] returns when the requests [C[0..m]] do. *)
Lemma sparse_square :
  forall (F : nat) (m n : Z),
    (forall k, 0 <= k <= m -> returns F 0%nat k n) ->
    returns (S F) 3%nat m n.
Proof.
  intros F m n HC. apply sparse_request; [auto|discriminate|].
  intros base st W.
  unfold get_coefficient. unfold bind at 1, get_node.
  assert (Hnode : nth_error (nodes st) 3 = Some (Node (K:=ZZ) (K_mul 0%nat 0%nat) true 0
                                                     (n_cache (nth 3 (nodes st) (LazyLaurentSeries_zero ZZ true))))).
  { destruct W as (dC & dE & dP & dQ & new & -> & _). reflexivity. }
  rewrite Hnode. cbn [n_kind].
  unfold LLS_mul_get_coefficient, bind.
  destruct (within_approx n base st W) as (A0 & _ & _).
  rewrite A0. cbv beta iota. rewrite A0. cbv beta iota.
  apply (for_range_total ZZ (within n base)); [|assumption].
  intros k c s Hin Ws. apply in_range in Hin.
  destruct (HC k ltac:(lia) base s Ws) as (val & s1 & E1 & W1).
  rewrite E1. destruct (truthy (K:=ZZ) val).
  - destruct (HC (m - k) ltac:(lia) base s1 W1) as (b & s2 & E2 & W2).
    rewrite E2. eexists. eexists. split; [reflexivity|assumption].
  - eexists. eexists. split; [reflexivity|assumption].
Qed.

(** [(z*C^2)[m]] returns when [C^2[m-1]] does. *)
Lemma sparse_shift :
  forall (F : nat) (m n : Z),
    returns (S F) 3%nat (m - 1) n ->
    returns (S (S F)) 4%nat m n.
Proof.
  intros F m n HQ. apply sparse_request; [auto|discriminate|].
  intros base st W.
  unfold get_coefficient. unfold bind at 1, get_node.
  assert (Hnode : nth_error (nodes st) 4 = Some (Node (K:=ZZ) (K_mul 1%nat 3%nat) true 1
                                                     (n_cache (nth 4 (nodes st) (LazyLaurentSeries_zero ZZ true))))).
  { destruct W as (dC & dE & dP & dQ & new & -> & _). reflexivity. }
  rewrite Hnode. cbn [n_kind].
  unfold LLS_mul_get_coefficient, bind.
  destruct (within_approx n base st W) as (_ & A1 & A3).
  rewrite A1. cbv beta iota. rewrite A3. cbv beta iota.
  apply (for_range_total ZZ (within n base)); [|assumption].
  intros k c s Hin Ws. apply in_range in Hin.
  assert (Ws' := within_requested n base s 1%nat k Ws ltac:(discriminate)).
  destruct Ws as (dC & dE & dP & dQ & new & -> & Hnew).
  rewrite (getitem_geometric ZZ F 1%nat k (sparse_state dC dE dP dQ (new ++ base)) _
             (lp_gen ZZ) 0 2 eq_refl eq_refl).
  destruct (Z.eq_dec k 1) as [->|Hk].
  - match goal with
    | |- context [@truthy ZZ ?x] => change (@truthy ZZ x) with true
    end.
    cbv iota.
    destruct (HQ base _ Ws') as (b & s2 & E2 & W2).
    rewrite E2. eexists. eexists. split; [reflexivity|assumption].
  - assert ((k >=? 2) = true) as -> by lia.
    match goal with
    | |- context [@truthy ZZ ?x] => change (@truthy ZZ x) with false
    end.
    cbv iota.
    eexists. eexists. split; [reflexivity|assumption].
Qed.

(** [(1 + z*C^2)[m]] returns when [(z*C^2)[m]] does. *)
Lemma sparse_sum :
  forall (F : nat) (m n : Z),
    returns (S F) 4%nat m n ->
    returns (S (S F)) 5%nat m n.
Proof.
  intros F m n HP. apply sparse_request; [auto|discriminate|].
  intros base st W.
  unfold get_coefficient. unfold bind at 1, get_node.
  assert (Hnode : nth_error (nodes st) 5 = Some (Node (K:=ZZ) (K_add 2%nat 4%nat) true 0
                                                     (n_cache (nth 5 (nodes st) (LazyLaurentSeries_zero ZZ true))))).
  { destruct W as (dC & dE & dP & dQ & new & -> & _). reflexivity. }
  rewrite Hnode. cbn [n_kind]. unfold bind.
  destruct (sparse_read_closed_form F 2%nat m n ltac:(auto) base st W)
    as (a & s1 & E1 & W1).
  rewrite E1.
  destruct (HP base s1 W1) as (b & s2 & E2 & W2).
  rewrite E2. eexists. eexists. split; [reflexivity|assumption].
Qed.

(** The formula of [C] at [m] returns when [(1 + z*C^2)[m]] does. *)
Lemma sparse_target :
  forall (F : nat) (m n : Z),
    returns F 5%nat m n ->
    forall base st, within n base st ->
      exists (v : Z) (st' : store ZZ),
        get_coefficient (getitem F) 0%nat m st = Ok (v : ZZ) st'
        /\ within n base st'.
Proof.
  intros F m n HE base st W.
  unfold get_coefficient. unfold bind at 1, get_node.
  assert (Hnode : nth_error (nodes st) 0
                  = Some (Node (K:=ZZ) (K_uninitialized (Some 5%nat)) true 0
                               (n_cache (nth 0 (nodes st) (LazyLaurentSeries_zero ZZ true))))).
  { destruct W as (dC & dE & dP & dQ & new & -> & _). reflexivity. }
  rewrite Hnode. cbn [n_kind]. now apply HE.
Qed.

(** The formula of [C] at [m] returns with a nesting of 4 m + 4 requests. *)
Lemma sparse_formula :
  forall (m f : nat) (n : Z),
    Z.of_nat m <= n ->
    forall base st, within n base st ->
      exists (v : Z) (st' : store ZZ),
        get_coefficient (getitem (4 * m + 4 + f)) 0%nat (Z.of_nat m) st = Ok (v : ZZ) st'
        /\ within n base st'.
Proof.
  intros m. induction m as [m IH] using lt_wf_ind. intros f n Hn.
  replace (4 * m + 4 + f)%nat with (S (S (S (4 * m + 1 + f)))) by lia.
  apply sparse_target, sparse_sum, sparse_shift, sparse_square.
  intros k Hk.
  replace (4 * m + 1 + f)%nat
    with (S (4 * Z.to_nat k + 4 + (4 * (m - 1 - Z.to_nat k) + f)))%nat by lia.
  apply sparse_request; [auto|intros _; lia|].
  intros base st W.
  assert (H := IH (Z.to_nat k) ltac:(lia) (4 * (m - 1 - Z.to_nat k) + f)%nat n
                  ltac:(lia) base st W).
  rewrite Z2Nat.id in H by lia. exact H.
Qed.

(** Every request [C[n]] on a store of the sparse construction returns,
    with a nesting of at most 4 n + 5 requests, and requests from [C] only
    coefficients of smaller index. *)
Lemma getitem_C_sparse :
  forall (f : nat) (n : Z) (dC dE dP dQ : list (Z * Z)) (dem : list (node_id * Z)),
    exists (v : Z) (st' : store ZZ) (new : list (node_id * Z)),
      getitem (4 * Z.to_nat n + 5 + f) 0%nat n (sparse_state dC dE dP dQ dem)
      = Ok (v : ZZ) st'
      /\ sparse_shape st'
      /\ demands st' = new ++ (0%nat, n) :: dem
      /\ Forall (below n) new.
Proof.
  intros f n dC dE dP dQ dem.
  replace (4 * Z.to_nat n + 5 + f)%nat with (S (4 * Z.to_nat n + 4 + f)) by lia.
  rewrite (getitem_inexact ZZ (4 * Z.to_nat n + 4 + f) 0%nat n
             (sparse_state dC dE dP dQ dem) _ eq_refl eq_refl).
  rewrite (inexact_getitem_sparse ZZ (getitem (4 * Z.to_nat n + 4 + f)) 0%nat n
             (requested 0%nat n (sparse_state dC dE dP dQ dem)) _
             (dC : list (Z * ZZ)) eq_refl eq_refl eq_refl).
  cbn [approximate_valuation].
  assert (Hdone : exists new,
             requested 0%nat n (sparse_state dC dE dP dQ dem)
             = sparse_state dC dE dP dQ (new ++ (0%nat, n) :: dem)
             /\ Forall (below n) new)
    by (exists []; split; [reflexivity|constructor]).
  destruct (Z.ltb_spec n 0) as [Hneg|Hpos].
  { destruct Hdone as (new & -> & Hnew).
    eexists. eexists. exists new. split; [reflexivity|].
    split; [exists dC, dE, dP, dQ; reflexivity|]. split; [reflexivity|assumption]. }
  destruct (dict_get (K:=ZZ) dC n).
  { destruct Hdone as (new & -> & Hnew).
    eexists. eexists. exists new. split; [reflexivity|].
    split; [exists dC, dE, dP, dQ; reflexivity|]. split; [reflexivity|assumption]. }
  destruct (sparse_formula (Z.to_nat n) f n ltac:(lia) ((0%nat, n) :: dem)
              (requested 0%nat n (sparse_state dC dE dP dQ dem)))
    as (v & st2 & E & (dC2 & dE2 & dP2 & dQ2 & new & -> & Hnew)).
  { exists dC, dE, dP, dQ, []. split; [reflexivity|constructor]. }
  replace (Z.of_nat (Z.to_nat n)) with n in E by lia.
  rewrite E. eexists. eexists. exists new. split; [reflexivity|].
  split; [|split; [reflexivity|assumption]].
  eexists _, _, _, _. reflexivity.
Qed.

End CatalanSparse.

(** C1: after [C = L(None); C.define(1 + z*C^2)] the coefficients
    [C[0..6]] are the Catalan numbers 1, 1, 2, 5, 14, 42, 132, in the dense
    and in the sparse implementation.  Every request [C[n]], on the fresh
    store and on any store left by earlier requests, returns: with a nesting
    of at most five coefficient requests in the dense implementation, of at
    most 4 n + 5 in the sparse one.  The requests it makes on [C] itself are
    all for indices below [n]. *)
Theorem catalan_coefficients :
  answer (coefficients 5 0%nat (range 0 7) (Catalan.initial false))
  = inr [1; 1; 2; 5; 14; 42; 132]
  /\ answer (coefficients 5 0%nat (range 0 7) (Catalan.initial true))
     = inr [1; 1; 2; 5; 14; 42; 132]
  /\ Catalan.computed 0 (Catalan.initial false)
  /\ (forall (f a : nat) (st : store ZZ) (n : Z),
        Catalan.computed a st ->
        exists (v : Z) (st' : store ZZ) (new : list (node_id * Z)),
          getitem (5 + f) 0%nat n st = Ok (v : ZZ) st'
          /\ Catalan.computed (Nat.max a (Z.to_nat (n + 1))) st'
          /\ demands st' = new ++ (0%nat, n) :: demands st
          /\ Forall (Catalan.below n) new)
  /\ Catalan.sparse_shape (Catalan.initial true)
  /\ (forall (f : nat) (st : store ZZ) (n : Z),
        Catalan.sparse_shape st ->
        exists (v : Z) (st' : store ZZ) (new : list (node_id * Z)),
          getitem (4 * Z.to_nat n + 5 + f) 0%nat n st = Ok (v : ZZ) st'
          /\ Catalan.sparse_shape st'
          /\ demands st' = new ++ (0%nat, n) :: demands st
          /\ Forall (Catalan.below n) new).
Proof.
  split; [vm_compute; reflexivity|]. split; [vm_compute; reflexivity|].
  split; [|split; [|split]].
  - exists [], [], [], []. repeat split.
  - intros f a [nds dem] n (cs & es & ps & qs & Hcs & Hes & Hps & Hqs & Hn).
    cbn [nodes] in Hn. subst nds.
    destruct (getitem_C f a cs es ps qs dem n Hcs Hes Hps Hqs)
      as (v & cs' & es' & ps' & qs' & new & E & Hcs' & Hes' & Hps' & Hqs' & Hnew).
    cbv zeta in E.
    exists v, (Catalan.at_rest (Nat.max a (Z.to_nat (n + 1))) cs' es' ps' qs'
                 (new ++ (0%nat, n) :: dem)), new.
    split; [exact E|]. split; [|split; [reflexivity|assumption]].
    exists cs', es', ps', qs'. repeat split; assumption.
  - exists [], [], [], []. reflexivity.
  - intros f [nds dem] n (dC & dE & dP & dQ & Hn).
    cbn [nodes] in Hn. subst nds.
    exact (getitem_C_sparse f n dC dE dP dQ dem).
Qed.

(** * Further properties of the operations *)

Section Further.

Variable K : CoeffRing.

(** ** Lists, ranges and Laurent polynomials *)










(** ** Requests for several coefficients *)




(** ** The sparse node of a coefficient function *)



(** ** Operations that return an operand *)






(** ** The dense node of a coefficient function *)




(** ** Truth value *)


End Further.







(** * Properties that rest on the laws of the coefficient ring *)

Section FurtherLaws.

Variable K : CoeffRing.
Hypothesis laws : CoeffRingLaws K.

Add Ring coefficients_ring : (ring_laws laws).

Notation "0" := (zero K) : ring_scope.
Notation "1" := (one K) : ring_scope.
Notation "x + y" := (add K x y) : ring_scope.
Notation "x * y" := (mul K x y) : ring_scope.
Notation "x - y" := (sub K x y) : ring_scope.
Notation "- x" := (opp K x) : ring_scope.




(** ** Closed-form nodes *)





(** ** The unit and the zero *)


(** ** The inverse *)


(** ** The valuation *)



(** ** Sums and differences of closed forms *)









(** ** Negation, scalar multiples and polynomials of closed forms *)






(** ** Equality of closed forms *)



End FurtherLaws.













